(** * Arrow compute kernels and Parquet dictionary / delta codecs

    A shallow embedding of

    - [cpp/src/arrow/compute/kernels/hash.cc]: the hash kernels behind
      [Unique] and [DictionaryEncode];
    - [cpp/src/parquet/encoding-internal.h]: [DictEncoder],
      [DictionaryDecoder] and [DeltaBitPackDecoder];
    - the cast kernel exercised by [cpp/src/arrow/compute/compute-test.cc].

    Fixed-width integers are [Z] with the wrap-around written out, buffers
    are lists indexed with stdpp's lookup and insert, pointers that can be
    null are options, and every access that leaves its allocation or goes
    through a null pointer is reported as [Fault]. *)

From Stdlib Require Import ZArith Lia String.
From stdpp Require Import base tactics option list.

Local Open Scope Z_scope.

(** ** Results of fallible code *)

Inductive StatusCode : Type :=
| Invalid
| NotImplemented
| Eof.

(** [Ok] is a normal return, [Fail] a returned [Status] or a thrown
    exception, [Fault] an access outside an allocation or through a null
    pointer (undefined behaviour in C++), [Timeout] a loop that used up its
    fuel. *)
Inductive result (A : Type) : Type :=
| Ok (a : A)
| Fail (code : StatusCode) (msg : string)
| Fault
| Timeout.

Arguments Ok {A} a.
Arguments Fail {A} code msg.
Arguments Fault {A}.
Arguments Timeout {A}.

#[global] Instance result_ret : MRet result := fun A a => Ok a.

#[global] Instance result_bind : MBind result := fun A B f m =>
  match m with
  | Ok a => f a
  | Fail c s => Fail c s
  | Fault => Fault
  | Timeout => Timeout
  end.

Definition is_ok {A : Type} (m : result A) : bool :=
  match m with Ok _ => true | _ => false end.

(** ** Fixed-width integers *)

(** Two's-complement reading of the low [w] bits of [z]. *)
Definition wrap_signed (w z : Z) : Z :=
  (z + 2 ^ (w - 1)) mod 2 ^ w - 2 ^ (w - 1).

(** The low [w] bits of [z] as an unsigned number. *)
Definition wrap_unsigned (w z : Z) : Z := z mod 2 ^ w.

Definition to_int32 (z : Z) : Z := wrap_signed 32 z.
Definition to_int64 (z : Z) : Z := wrap_signed 64 z.
Definition to_uint64 (z : Z) : Z := wrap_unsigned 64 z.

Definition INT32_MAX : Z := 2 ^ 31 - 1.

(** [buf[i]] for a buffer held as a list: [None] outside the allocation. *)
Definition at_index {A : Type} (buf : list A) (i : Z) : option A :=
  if i <? 0 then None else buf !! Z.to_nat i.

(** A counted loop [for (i = start; i < start + n; ++i) body], stopping at
    the first iteration that does not return normally. *)
Fixpoint for_range {S : Type} (n : nat) (i : Z)
    (body : Z -> S -> result S) (s : S) : result S :=
  match n with
  | O => Ok s
  | S n' => s' ← body i s; for_range n' (i + 1) body s'
  end.

(** ** The hash kernels of [arrow/compute/kernels/hash.cc] *)

Module HashKernel.

Definition hash_slot_t : Type := Z.

(** [static constexpr int64_t kInitialHashTableSize = 1 << 10] *)
Definition kInitialHashTableSize : Z := Z.shiftl 1 10.

(** [kHashSlotEmpty = std::numeric_limits<int32_t>::max()] *)
Definition kHashSlotEmpty : hash_slot_t := INT32_MAX.

(** [NewHashTable]: [size] slots, all empty. *)
Definition NewHashTable (size : Z) : list hash_slot_t :=
  replicate (Z.to_nat size) kHashSlotEmpty.

(** The fields of [class HashTable]; [hash_table_] is [None] while the
    pointer is null. *)
Record HashTable : Type := mkHashTable {
  initialized_ : bool;
  hash_table_ : option (list hash_slot_t);
  hash_table_size_ : Z;
  mod_bitmask_ : Z
}.

(** The constructor of [HashTable]. *)
Definition HashTable_new : HashTable :=
  {| initialized_ := false; hash_table_ := None;
     hash_table_size_ := 0; mod_bitmask_ := 0 |}.

(** [HashTable::Init(elements)] *)
Definition HashTable_Init (elements : Z) : HashTable :=
  {| initialized_ := true;
     hash_table_ := Some (NewHashTable elements);
     hash_table_size_ := elements;
     mod_bitmask_ := elements - 1 |}.

(** The element types of the dispatch switches. *)
Inductive TypeId : Type :=
| NA | BOOL
| UINT8 | INT8 | UINT16 | INT16 | UINT32 | INT32 | UINT64 | INT64
| FLOAT | DOUBLE
| DATE32 | DATE64 | TIME32 | TIME64 | TIMESTAMP
| BINARY | STRING | FIXED_SIZE_BINARY.

(** [Int32Builder]: the slots appended so far, [None] for a slot appended
    with [UnsafeAppendToBitmap(false)]. *)
Definition Int32Builder : Type := list (option Z).

(** The hooks a kernel class mixes into [HashTableKernel]. [Flush] returns
    what it pushes onto [out]. *)
Class Action (A : Type) : Type := {
  allow_expand : bool;
  Reserve : Z -> A -> result A;
  ObserveNull : A -> A;
  ObserveFound : hash_slot_t -> A -> A;
  ObserveNotFound : hash_slot_t -> A -> A;
  Flush : A -> A * list (list (option Z))
}.

(** [UniqueImpl]: every hook is a no-op. *)
#[global] Instance UniqueImpl : Action unit := {|
  allow_expand := true;
  Reserve := fun _ a => Ok a;
  ObserveNull := fun a => a;
  ObserveFound := fun _ a => a;
  ObserveNotFound := fun _ a => a;
  Flush := fun a => (a, [])
|}.

(** [DictEncodeImpl]: the state is [indices_builder_]. *)
#[global] Instance DictEncodeImpl : Action Int32Builder := {|
  allow_expand := true;
  Reserve := fun _ b => Ok b;
  ObserveNull := fun b => b ++ [None];
  ObserveFound := fun slot b => b ++ [Some slot];
  ObserveNotFound := fun slot b => b ++ [Some slot];
  Flush := fun b => ([], [b])
|}.

Section Kernels.

(** [T] is the C type of the elements and [HashValue] is
    [HashUtil::Hash(&value, sizeof(T), 0)]. *)
Context {T : Type}.
Variable HashValue : T -> Z.

(** [ArrayData]: [buffers0] is the validity bitmap ([None] when absent),
    one [bool] per bit, and [buffers1] the values. *)
Record ArrayData : Type := mkArrayData {
  type : TypeId;
  arr_length : Z;
  null_count : Z;
  offset : Z;
  buffers0 : option (list bool);
  buffers1 : list T
}.

(** [GetValues<T>(arr, 1)[i]] *)
Definition GetValues (arr : ArrayData) (i : Z) : result T :=
  match at_index (buffers1 arr) (offset arr + i) with
  | Some v => Ok v
  | None => Fault
  end.

(** [BitmapReader(arr.buffers[0]->data(), arr.offset, arr.length)] after [i]
    calls of [Next]: [IsNotSet()]. *)
Definition IsNotSet (arr : ArrayData) (i : Z) : result bool :=
  match buffers0 arr with
  | None => Fault
  | Some bits =>
      match at_index bits (offset arr + i) with
      | Some b => Ok (negb b)
      | None => Fault
      end
  end.

(** [HashDictionary<Type>]. [buffer] is [None] while the shared pointer
    is null, as the constructor leaves it, and otherwise holds the written
    prefix [values[0 .. size)] of the allocation, whose length in elements
    is [capacity]. *)
Record HashDictionary : Type := mkHashDictionary {
  buffer : option (list T);
  size : Z;
  capacity : Z
}.

(** The constructor: [size(0), capacity(0)], [buffer] null. *)
Definition HashDictionary_new : HashDictionary :=
  {| buffer := None; size := 0; capacity := 0 |}.

(** [HashDictionary::Resize(elements)]: [this->buffer->Resize(...)]. *)
Definition HashDictionary_Resize (elements : Z) (d : HashDictionary)
    : result HashDictionary :=
  match buffer d with
  | None => Fault
  | Some values =>
      Ok {| buffer := Some (take (Z.to_nat elements) values);
            size := size d;
            capacity := elements |}
  end.

(** [HashDictionary::Init]: a new buffer, [size = 0], then
    [Resize(kInitialHashTableSize)]. *)
Definition HashDictionary_Init (d : HashDictionary) : result HashDictionary :=
  HashDictionary_Resize kInitialHashTableSize
    {| buffer := Some []; size := 0; capacity := capacity d |}.

(** [HashTableKernel<Type, Action, enable_if_primitive_ctype<Type>>] with
    the state [action] of the class mixed in. *)
Record Kernel (A : Type) : Type := mkKernel {
  table : HashTable;
  dict_ : HashDictionary;
  action : A
}.
Arguments mkKernel {A}.
Arguments table {A}.
Arguments dict_ {A}.
Arguments action {A}.

Definition Kernel_new {A : Type} (a : A) : Kernel A :=
  mkKernel HashTable_new HashDictionary_new a.

(** [HashTableKernel::Init]: [dict_.Init(pool_)], then
    [HashTable::Init(kInitialHashTableSize)]. *)
Definition Kernel_Init {A : Type} (k : Kernel A) : result (Kernel A) :=
  d ← HashDictionary_Init (dict_ k);
  Ok (mkKernel (HashTable_Init kInitialHashTableSize) d (action k)).

(** The macro [HASH_INNER_LOOP] for the element [value], as the
    preprocessor sees it. Every line of the definition (hash.cc 249-278)
    ends in a backslash, and lines are spliced before comments are removed:
    the comment that starts with [// Find an empty slot] on line 253 runs
    to the end of the definition. What is left is

      [int64_t j = HashValue(value) & mod_bitmask_;]
      [hash_slot_t slot = hash_slots_[j];]

    so the probing loop, the insertion into [dict_], the calls of
    [ObserveFound] and [ObserveNotFound], the exception for a kernel that
    does not expand and the call of [DoubleSize] are not part of the
    macro. *)
Definition HASH_INNER_LOOP {A : Type} (value : T) (k : Kernel A)
    : result (Kernel A) :=
  match hash_table_ (table k) with
  | None => Fault
  | Some hash_slots_ =>
      let j := Z.land (HashValue value) (mod_bitmask_ (table k)) in
      match at_index hash_slots_ j with
      | None => Fault
      | Some slot => Ok k
      end
  end.

(** One iteration of the loop of [Append] over an array with nulls. *)
Definition Append_nullable_step {A : Type} `{Action A} (arr : ArrayData)
    (i : Z) (k : Kernel A) : result (Kernel A) :=
  value ← GetValues arr i;
  is_null ← IsNotSet arr i;
  if (is_null : bool) then
    Ok (mkKernel (table k) (dict_ k) (ObserveNull (action k)))
  else HASH_INNER_LOOP value k.

(** One iteration of the loop of [Append] over an array without nulls. The
    macro reads [value], which this branch does not declare; it is taken to
    be [values[i]], as in the other branch. *)
Definition Append_step {A : Type} `{Action A} (arr : ArrayData)
    (i : Z) (k : Kernel A) : result (Kernel A) :=
  value ← GetValues arr i;
  HASH_INNER_LOOP value k.

(** [HashTableKernel<Type, Action, enable_if_primitive_ctype<Type>>::Append].
    With [null_count != 0] the reader of the validity bitmap is built from
    [arr.buffers[0]->data()] before the loop, for an empty array too. *)
Definition Append {A : Type} `{Action A} (arr : ArrayData) (k : Kernel A)
    : result (Kernel A) :=
  k ← (if initialized_ (table k) then Ok k else Kernel_Init k);
  a ← Reserve (arr_length arr) (action k);
  let k := mkKernel (table k) (dict_ k) a in
  if negb (null_count arr =? 0) then
    match buffers0 arr with
    | None => Fault
    | Some _ =>
        for_range (Z.to_nat (arr_length arr)) 0 (Append_nullable_step arr) k
    end
  else
    for_range (Z.to_nat (arr_length arr)) 0 (Append_step arr) k.

(** [GetDictionary]: [dict_.buffer] resized to [dict_.size] elements, with
    no validity bitmap. On a kernel that was never initialized the buffer
    pointer is null. *)
Definition GetDictionary {A : Type} (k : Kernel A) : result (list T) :=
  match buffer (dict_ k) with
  | None => Fault
  | Some values => Ok (take (Z.to_nat (size (dict_ k))) values)
  end.

(** [HashTableKernel<Type, Action, enable_if_null<Type>>]: its [Init] is a
    no-op, so [initialized_] and the table stay as constructed. *)
Record NullKernel (A : Type) : Type := mkNullKernel {
  null_table : HashTable;
  null_action : A
}.
Arguments mkNullKernel {A}.
Arguments null_table {A}.
Arguments null_action {A}.

Definition NullKernel_new {A : Type} (a : A) : NullKernel A :=
  mkNullKernel HashTable_new a.

Definition NullKernel_Init {A : Type} (k : NullKernel A) : NullKernel A := k.

(** [HashTableKernel<Type, Action, enable_if_null<Type>>::Append] *)
Definition NullKernel_Append {A : Type} `{Action A} (arr : ArrayData)
    (k : NullKernel A) : result (NullKernel A) :=
  let k := if initialized_ (null_table k) then k else NullKernel_Init k in
  a ← Reserve (arr_length arr) (null_action k);
  for_range (Z.to_nat (arr_length arr)) 0
    (fun _ k => Ok (mkNullKernel (null_table k) (ObserveNull (null_action k))))
    (mkNullKernel (null_table k) a).

(** [GetDictionary] of the null kernel: [NullArray(0)]. *)
Definition NullKernel_GetDictionary {A : Type} (k : NullKernel A) : list T :=
  [].

(** [std::unique_ptr<HashTable> hasher]: the kernel chosen by the switch. *)
Inductive Hasher (A : Type) : Type :=
| NullHasher (k : NullKernel A)
| PrimitiveHasher (k : Kernel A).
Arguments NullHasher {A}.
Arguments PrimitiveHasher {A}.

(** The [switch] shared by [GetUniqueKernel] and
    [GetDictionaryEncodeKernel], followed by [CHECK_IMPLEMENTED]. *)
Definition GetKernel {A : Type} (FUNCNAME : string) (a : A) (ty : TypeId)
    : result (Hasher A) :=
  match ty with
  | NA => Ok (NullHasher (NullKernel_new a))
  | UINT8 | INT8 | UINT16 | INT16 | UINT32 | INT32 | UINT64 | INT64
  | FLOAT | DOUBLE => Ok (PrimitiveHasher (Kernel_new a))
  | _ => Fail NotImplemented FUNCNAME
  end.

Definition GetUniqueKernel (ty : TypeId) : result (Hasher unit) :=
  GetKernel "unique" tt ty.

Definition GetDictionaryEncodeKernel (ty : TypeId)
    : result (Hasher Int32Builder) :=
  GetKernel "dictionary-encode" [] ty.

(** [HashKernelImpl::Append] *)
Definition Hasher_Append {A : Type} `{Action A} (arr : ArrayData)
    (h : Hasher A) : result (Hasher A) :=
  match h with
  | NullHasher k => k ← NullKernel_Append arr k; Ok (NullHasher k)
  | PrimitiveHasher k => k ← Append arr k; Ok (PrimitiveHasher k)
  end.

(** [HashKernelImpl::Flush] *)
Definition Hasher_Flush {A : Type} `{Action A} (h : Hasher A)
    : Hasher A * list (list (option Z)) :=
  match h with
  | NullHasher k =>
      let '(a, out) := Flush (null_action k) in
      (NullHasher (mkNullKernel (null_table k) a), out)
  | PrimitiveHasher k =>
      let '(a, out) := Flush (action k) in
      (PrimitiveHasher (mkKernel (table k) (dict_ k) a), out)
  end.

(** [HashKernelImpl::Call]: [Append] then [Flush], the outputs appended to
    [out]. *)
Definition Hasher_Call {A : Type} `{Action A} (arr : ArrayData)
    (s : Hasher A * list (list (option Z)))
    : result (Hasher A * list (list (option Z))) :=
  h ← Hasher_Append arr s.1;
  let '(h, out) := Hasher_Flush h in
  Ok (h, s.2 ++ out).

(** [HashKernelImpl::GetDictionary] *)
Definition Hasher_GetDictionary {A : Type} (h : Hasher A) : result (list T) :=
  match h with
  | NullHasher k => Ok (NullKernel_GetDictionary k)
  | PrimitiveHasher k => GetDictionary k
  end.

Definition Hasher_table {A : Type} (h : Hasher A) : HashTable :=
  match h with
  | NullHasher k => null_table k
  | PrimitiveHasher k => table k
  end.

(** [Datum], restricted to the two kinds the hash functions accept. *)
Inductive Datum : Type :=
| ARRAY (array : ArrayData)
| CHUNKED_ARRAY (chunked_type : TypeId) (chunks : list ArrayData).

(** [value.type()] *)
Definition Datum_type (value : Datum) : TypeId :=
  match value with
  | ARRAY a => type a
  | CHUNKED_ARRAY ty _ => ty
  end.

Fixpoint Call_chunks {A : Type} `{Action A} (chunks : list ArrayData)
    (s : Hasher A * list (list (option Z)))
    : result (Hasher A * list (list (option Z))) :=
  match chunks with
  | [] => Ok s
  | c :: rest => s ← Hasher_Call c s; Call_chunks rest s
  end.

(** [InvokeHash]: the kernel after the calls, [kernel_outputs] and the
    dictionary. *)
Definition InvokeHash {A : Type} `{Action A} (func : Hasher A) (value : Datum)
    : result (Hasher A * list (list (option Z)) * list T) :=
  '(h, outs) ←
    match value with
    | ARRAY a => Hasher_Call a (func, [])
    | CHUNKED_ARRAY _ chunks => Call_chunks chunks (func, [])
    end;
  dictionary ← Hasher_GetDictionary h;
  Ok (h, outs, dictionary).

(** [Unique]: the dictionary array. *)
Definition Unique (value : Datum) : result (list T) :=
  func ← GetUniqueKernel (Datum_type value);
  '(_, _, dictionary) ← InvokeHash func value;
  Ok dictionary.

(** A [DictionaryArray]: the indices and the dictionary of its type. *)
Record DictionaryArray : Type := mkDictionaryArray {
  indices : list (option Z);
  dictionary : list T
}.

Inductive DictDatum : Type :=
| DICT_ARRAY (a : DictionaryArray)
| DICT_CHUNKED_ARRAY (chunks : list DictionaryArray).

(** [DictionaryEncode] *)
Definition DictionaryEncode (value : Datum) : result DictDatum :=
  func ← GetDictionaryEncodeKernel (Datum_type value);
  '(_, indices_outputs, dictionary) ← InvokeHash func value;
  match indices_outputs with
  | [] => Fault
  | first :: _ =>
      let dict_chunks :=
        map (fun datum => mkDictionaryArray datum dictionary) indices_outputs in
      match value with
      | ARRAY _ => Ok (DICT_ARRAY (mkDictionaryArray first dictionary))
      | CHUNKED_ARRAY _ _ => Ok (DICT_CHUNKED_ARRAY dict_chunks)
      end
  end.

End Kernels.

Arguments mkKernel {T A}.
Arguments table {T A}.
Arguments dict_ {T A}.
Arguments action {T A}.
Arguments mkNullKernel {A}.
Arguments null_table {A}.
Arguments null_action {A}.
Arguments NullHasher {T A}.
Arguments PrimitiveHasher {T A}.

End HashKernel.

(** ** The cast kernel

    [arrow/compute/kernels/cast.cc] is not among the sources; only its tests
    in [compute-test.cc] are. The kernel is modelled from section 4.C5 of the
    specification and run against the vectors of the tests. *)

Module Cast.

Inductive IntType : Type :=
| Int8 | Int16 | Int32 | Int64
| UInt8 | UInt16 | UInt32 | UInt64.

Definition bit_width (t : IntType) : Z :=
  match t with
  | Int8 | UInt8 => 8
  | Int16 | UInt16 => 16
  | Int32 | UInt32 => 32
  | Int64 | UInt64 => 64
  end.

Definition is_signed (t : IntType) : bool :=
  match t with
  | Int8 | Int16 | Int32 | Int64 => true
  | _ => false
  end.

Definition min_value (t : IntType) : Z :=
  if is_signed t then - 2 ^ (bit_width t - 1) else 0.

Definition max_value (t : IntType) : Z :=
  if is_signed t then 2 ^ (bit_width t - 1) - 1 else 2 ^ bit_width t - 1.

(** Modelled from the spec: [v] is representable in [t], one of the
    signed and unsigned integer types of widths 8, 16, 32 and 64. *)
Definition representable (t : IntType) (v : Z) : Prop :=
  min_value t <= v <= max_value t.

(** Modelled from the spec: the two's-complement truncation of [v] to the
    width of [t], read in the signedness of [t]. *)
Definition truncate (t : IntType) (v : Z) : Z :=
  if is_signed t then wrap_signed (bit_width t) v
  else wrap_unsigned (bit_width t) v.

(** Modelled from the spec: one position of a column, the validity bit
    and the value bytes, which are present (and arbitrary) under a cleared
    validity bit too. *)
Record Slot : Type := mkSlot {
  is_valid : bool;
  value : Z
}.

Definition Array : Type := list Slot.

(** [ArrayFromVector(is_valid, values)] of the tests. *)
Definition ArrayFromVector (valid : list bool) (vs : list Z) : Array :=
  zip_with mkSlot valid vs.

(** Every non-null value of the column is a value of type [t]. *)
Definition well_typed (t : IntType) (A : Array) : Prop :=
  forall s, s ∈ A -> is_valid s = true -> representable t (value s).

Record CastOptions : Type := mkCastOptions {
  allow_int_overflow : bool;
  allow_time_truncate : bool
}.

(** Modelled from the spec: the integer to integer rule of the cast kernel
    (section 4.C5), whose source [cast.cc] is missing. A conversion to a
    narrower type loses value when the truncated value is not the source
    value; with [allow_int_overflow = false] such a conversion at a non-null
    position fails with [Invalid]. Otherwise every position holds the
    two's-complement truncation of its source value, under the validity bit
    of the input. *)
Definition loses_value (tgt : IntType) (s : Slot) : bool :=
  is_valid s && negb (truncate tgt (value s) =? value s).

(** Modelled from the spec: [cast(input_array, target_type, options)] from
    the integer type [src] to the integer type [tgt]. *)
Definition cast_int (options : CastOptions) (src tgt : IntType) (A : Array)
    : result Array :=
  if (bit_width tgt <? bit_width src) && negb (allow_int_overflow options)
     && existsb (loses_value tgt) A
  then Fail Invalid "Integer value out of bounds"
  else Ok (map (fun s => mkSlot (is_valid s) (truncate tgt (value s))) A).

Inductive TimeUnit : Type := SECOND | MILLI | MICRO | NANO.

(** Modelled from the spec: the unit multipliers s:1, ms:10^3, us:10^6,
    ns:10^9. *)
Definition multiplier (u : TimeUnit) : Z :=
  match u with
  | SECOND => 1
  | MILLI => 1000
  | MICRO => 1000000
  | NANO => 1000000000
  end.

(** [u] is a coarser unit than [v]. *)
Definition coarser (u v : TimeUnit) : bool := multiplier u <? multiplier v.

(** Modelled from the spec: the integer ratio between two units, the
    larger multiplier over the smaller. *)
Definition unit_ratio (u v : TimeUnit) : Z :=
  if coarser u v then multiplier v / multiplier u
  else multiplier u / multiplier v.

(** Modelled from the spec: a non-null position whose division by [ratio]
    discards nonzero sub-units. *)
Definition discards_subunits (ratio : Z) (s : Slot) : bool :=
  is_valid s && negb (Z.rem (value s) ratio =? 0).

(** Modelled from the spec: the timestamp to timestamp rule of the cast
    kernel (section 4.C5), whose source [cast.cc] is missing. From a coarser
    unit the values are multiplied by the unit ratio. The elements of a
    timestamp array are [int64_t] (compute-test.cc 282-288) and the
    specification gives no rule for a product outside 64 bits: the output
    element holds the low 64 bits of the product, which is the product
    whenever that is an [int64_t]. To a coarser unit the values are
    divided, rounding toward zero, and with [allow_time_truncate = false] a
    non-null value that is not a multiple of the ratio fails with
    [Invalid]. Equal units return the input. *)
Definition cast_timestamp (options : CastOptions) (u v : TimeUnit) (A : Array)
    : result Array :=
  let ratio := unit_ratio u v in
  if coarser u v then
    Ok (map (fun s => mkSlot (is_valid s) (to_int64 (value s * ratio))) A)
  else if multiplier u =? multiplier v then Ok A
  else if negb (allow_time_truncate options)
          && existsb (discards_subunits ratio) A
  then Fail Invalid "Casting would lose data"
  else Ok (map (fun s => mkSlot (is_valid s) (Z.quot (value s) ratio)) A).

(** [ASSERT_ARRAYS_EQUAL]: same length, same validity, same values at the
    non-null positions. *)
Definition arrays_equal (A B : Array) : Prop :=
  Forall2 (fun a b => is_valid a = is_valid b
                      /\ (is_valid a = true -> value a = value b)) A B.

Definition arrays_equalb (A B : Array) : bool :=
  (length A =? length B)%nat &&
  forallb (fun p => Bool.eqb (is_valid p.1) (is_valid p.2)
                    && (negb (is_valid p.1) || (value p.1 =? value p.2)))
          (zip A B).

(** The outcome of a cast up to what a caller can observe: failure with the
    same code, or success with equal arrays. *)
Definition same_outcome (r1 r2 : result Array) : Prop :=
  match r1, r2 with
  | Ok B1, Ok B2 => arrays_equal B1 B2
  | Fail c1 _, Fail c2 _ => c1 = c2
  | Fault, Fault => True
  | Timeout, Timeout => True
  | _, _ => False
  end.

Definition safe : CastOptions :=
  {| allow_int_overflow := false; allow_time_truncate := false |}.

Definition check_pass (r : result Array) (expected : Array) : bool :=
  match r with
  | Ok B => arrays_equalb B expected
  | _ => false
  end.

Definition check_fails (r : result Array) : bool :=
  match r with
  | Fail Invalid _ => true
  | _ => false
  end.

End Cast.

(** ** The dictionary encoder of [parquet/encoding-internal.h] *)

Module DictEncoder.

(** A byte of a buffer, as a number in [0, 256). *)
Definition uint8_t : Type := Z.

(** The [n] low bytes of [z], least significant first: what [memcpy] from
    an [n]-byte unsigned integer writes on a little-endian machine. *)
Fixpoint le_bytes (n : nat) (z : Z) : list uint8_t :=
  match n with
  | O => []
  | S n' => z mod 256 :: le_bytes n' (z / 256)
  end.

(** Modelled from the spec: the memo table of section 4.C4
    ([arrow::internal::ScalarMemoTable] and [BinaryMemoTable] of the missing
    [arrow/util/hashing.h]). It maps the observed keys to dense indices in
    insertion order; [memo_keys] lists the keys by index. *)
Record MemoTable (K : Type) : Type := mkMemoTable {
  memo_keys : list K
}.
Arguments mkMemoTable {K}.
Arguments memo_keys {K}.

Section Memo.
Context {K : Type} `{EqDecision K}.

(** Modelled from the spec: the dense index of [key], if it was
    observed. *)
Fixpoint index_of (key : K) (keys : list K) : option Z :=
  match keys with
  | [] => None
  | k :: rest =>
      if decide (k = key) then Some 0
      else (fun i => i + 1) <$> index_of key rest
  end.

(** Modelled from the spec: [size()], the number of distinct values
    memoized. *)
Definition memo_size (m : MemoTable K) : Z := Z.of_nat (length (memo_keys m)).

(** Modelled from the spec: [get_or_insert(value, on_found, on_not_found)]
    returns the existing dense index of a value already observed and calls
    [on_found]; otherwise it assigns the next dense index, calls
    [on_not_found] with it and returns it. The callbacks act on the state
    [S] of the caller. *)
Definition GetOrInsert {S : Type} (key : K) (on_found on_not_found : Z -> S -> S)
    (m : MemoTable K) (s : S) : Z * MemoTable K * S :=
  match index_of key (memo_keys m) with
  | Some i => (i, m, on_found i s)
  | None =>
      let i := memo_size m in
      (i, mkMemoTable (memo_keys m ++ [key]), on_not_found i s)
  end.

End Memo.

(** [ByteArray] and [FixedLenByteArray]: [ptr] is [None] for a null pointer
    and otherwise the bytes of the allocation it points into. *)
Record ByteArray : Type := mkByteArray {
  len : Z;
  ptr : option (list uint8_t)
}.

(** The [length] bytes at [ptr], as [GetOrInsert(ptr, length, ...)] copies
    them; a null [ptr] is replaced by the one-byte array [empty]. *)
Definition bytes_at (ptr : option (list uint8_t)) (length : Z)
    : result (list uint8_t) :=
  let data := default [0] ptr in
  if length <? 0 then Fault
  else if Z.of_nat (List.length data) <? length then Fault
  else Ok (take (Z.to_nat length) data).

(** What distinguishes the three definitions of [Put] and [WriteDict]: the
    memo key of a value, the number [on_not_found] adds to
    [dict_encoded_size_], and the bytes [WriteDict] writes for an entry. All
    may depend on [type_length_]. *)
Record Specialization (T K : Type) : Type := mkSpecialization {
  memo_key : Z -> T -> result K;
  on_not_found_size : Z -> T -> Z;
  write_entry : Z -> K -> list uint8_t
}.
Arguments mkSpecialization {T K}.
Arguments memo_key {T K}.
Arguments on_not_found_size {T K}.
Arguments write_entry {T K}.

(** The primary templates, for a primitive [T] of [sizeof_T] bytes whose
    object representation is [bytes_of]: [Put] adds
    [static_cast<int>(sizeof(T))] and [WriteDict] copies the values. *)
Definition Primitive {T : Type} (sizeof_T : Z) (bytes_of : T -> list uint8_t)
    : Specialization T T :=
  {| memo_key := fun _ v => Ok v;
     on_not_found_size := fun _ _ => to_int32 sizeof_T;
     write_entry := fun _ v => bytes_of v |}.

(** [DictEncoder<ByteArrayType>]: [Put] adds
    [static_cast<int>(v.len + sizeof(uint32_t))], [WriteDict] writes the
    length as a [uint32_t] and then the bytes. *)
Definition ByteArrayType : Specialization ByteArray (list uint8_t) :=
  {| memo_key := fun _ v => bytes_at (ptr v) (to_int32 (len v));
     on_not_found_size := fun _ v => to_int32 (len v + 4);
     write_entry := fun _ k =>
       le_bytes 4 (wrap_unsigned 32 (Z.of_nat (length k))) ++ k |}.

(** [DictEncoder<FLBAType>]: [Put] adds [type_length_], [WriteDict] writes
    [type_length_] bytes of each entry. *)
Definition FLBAType : Specialization ByteArray (list uint8_t) :=
  {| memo_key := fun type_length_ v => bytes_at (ptr v) type_length_;
     on_not_found_size := fun type_length_ _ => type_length_;
     write_entry := fun type_length_ k => take (Z.to_nat type_length_) k |}.

(** The fields of [DictEncoder<DType>]. *)
Record DictEncoder (K : Type) : Type := mkDictEncoder {
  buffered_indices_ : list Z;
  dict_encoded_size_ : Z;
  type_length_ : Z;
  memo_table_ : MemoTable K
}.
Arguments mkDictEncoder {K}.
Arguments buffered_indices_ {K}.
Arguments dict_encoded_size_ {K}.
Arguments type_length_ {K}.
Arguments memo_table_ {K}.

(** The constructor, for a column descriptor of length [type_length]. *)
Definition DictEncoder_new {K : Type} (type_length : Z) : DictEncoder K :=
  {| buffered_indices_ := [];
     dict_encoded_size_ := 0;
     type_length_ := type_length;
     memo_table_ := mkMemoTable [] |}.

Definition dict_encoded_size {K : Type} (e : DictEncoder K) : Z :=
  dict_encoded_size_ e.

Definition num_entries {K : Type} (e : DictEncoder K) : Z :=
  memo_size (memo_table_ e).

Section Encoder.
Context {T K : Type} `{EqDecision K}.
Variable DType : Specialization T K.

(** [Put(const T& v)]: [dict_encoded_size_ +=] wraps in 32 bits. *)
Definition Put (v : T) (e : DictEncoder K) : result (DictEncoder K) :=
  key ← memo_key DType (type_length_ e) v;
  let on_found := fun (memo_index : Z) (size : Z) => size in
  let on_not_found := fun (memo_index : Z) (size : Z) =>
    to_int32 (size + on_not_found_size DType (type_length_ e) v) in
  let '(memo_index, memo, size) :=
    GetOrInsert key on_found on_not_found (memo_table_ e)
      (dict_encoded_size_ e) in
  Ok {| buffered_indices_ := buffered_indices_ e ++ [memo_index];
        dict_encoded_size_ := size;
        type_length_ := type_length_ e;
        memo_table_ := memo |}.

(** [Put(const T* src, int num_values)] *)
Definition Put_many (src : list T) (num_values : Z) (e : DictEncoder K)
    : result (DictEncoder K) :=
  for_range (Z.to_nat num_values) 0
    (fun i e => match at_index src i with
                | Some v => Put v e
                | None => Fault
                end) e.

(** [PutSpaced]: [valid_bits] holds one [bool] per bit. *)
Definition PutSpaced (src : list T) (num_values : Z) (valid_bits : list bool)
    (valid_bits_offset : Z) (e : DictEncoder K) : result (DictEncoder K) :=
  for_range (Z.to_nat num_values) 0
    (fun i e => match at_index valid_bits (valid_bits_offset + i) with
                | Some true =>
                    match at_index src i with
                    | Some v => Put v e
                    | None => Fault
                    end
                | Some false => Ok e
                | None => Fault
                end) e.

(** [WriteDict]: the bytes written to [buffer], the entries in insertion
    order. *)
Definition WriteDict (e : DictEncoder K) : list uint8_t :=
  concat (map (write_entry DType (type_length_ e)) (memo_keys (memo_table_ e))).

(** The calls that feed values to an encoder. *)
Inductive Call : Type :=
| CallPut (v : T)
| CallPutMany (src : list T) (num_values : Z)
| CallPutSpaced (src : list T) (num_values : Z) (valid_bits : list bool)
    (valid_bits_offset : Z).

Definition call (c : Call) (e : DictEncoder K) : result (DictEncoder K) :=
  match c with
  | CallPut v => Put v e
  | CallPutMany src n => Put_many src n e
  | CallPutSpaced src n bits off => PutSpaced src n bits off e
  end.

Fixpoint calls (cs : list Call) (e : DictEncoder K) : result (DictEncoder K) :=
  match cs with
  | [] => Ok e
  | c :: rest => e ← call c e; calls rest e
  end.

(** [bit_width()]; [BitUtil::Log2] of the missing [arrow/util/bit-util.h]
    is the logarithm rounded up. *)
Definition bit_width (e : DictEncoder K) : Z :=
  if num_entries e =? 0 then 0
  else if num_entries e =? 1 then 1
  else Z.log2_up (num_entries e).

(** [::arrow::util::RleEncoder] of the missing [arrow/util/rle-encoding.h]:
    [RleEncoder_new buffer_len bit_width] is the constructor over a buffer
    of [buffer_len] bytes, [RleEncoder_Put] returns [false] when the value
    does not fit, [RleEncoder_buffer] is what has been written. *)
Context {RleEncoder : Type}.
Variable RleEncoder_new : Z -> Z -> RleEncoder.
Variable RleEncoder_Put : Z -> RleEncoder -> bool * RleEncoder.
Variable RleEncoder_Flush : RleEncoder -> RleEncoder.
Variable RleEncoder_len : RleEncoder -> Z.
Variable RleEncoder_buffer : RleEncoder -> list uint8_t.

(** The loop of [WriteIndices]: [None] as soon as a [Put] fails. *)
Fixpoint put_indices (indices : list Z) (encoder : RleEncoder)
    : option RleEncoder :=
  match indices with
  | [] => Some encoder
  | index :: rest =>
      let '(ok, encoder) := RleEncoder_Put index encoder in
      if (ok : bool) then put_indices rest encoder else None
  end.

(** [ClearIndices] *)
Definition ClearIndices (e : DictEncoder K) : DictEncoder K :=
  {| buffered_indices_ := [];
     dict_encoded_size_ := dict_encoded_size_ e;
     type_length_ := type_length_ e;
     memo_table_ := memo_table_ e |}.

(** [WriteIndices(buffer, buffer_len)]: the returned number, the bytes of
    [buffer] written by a successful call, and the encoder afterwards. *)
Definition WriteIndices (buffer_len : Z) (e : DictEncoder K)
    : Z * list uint8_t * DictEncoder K :=
  let first := wrap_unsigned 8 (bit_width e) in
  let buffer_len := buffer_len - 1 in
  let encoder := RleEncoder_new buffer_len (bit_width e) in
  match put_indices (buffered_indices_ e) encoder with
  | None => (-1, [], e)
  | Some encoder =>
      let encoder := RleEncoder_Flush encoder in
      (1 + RleEncoder_len encoder, first :: RleEncoder_buffer encoder,
       ClearIndices e)
  end.

End Encoder.

(** Modelled from the spec: an encoder of the run format of section 4.C3
    that writes every value as an RLE run of one repetition, the header
    byte [1 << 1] and then the value in the bytes its bit width needs. It
    stands for the missing [RleEncoder] where an example needs a concrete
    one. *)
Record RunEncoder : Type := mkRunEncoder {
  run_buffer_len : Z;
  run_bit_width : Z;
  run_written : list uint8_t
}.

Definition RunEncoder_new (buffer_len bit_width : Z) : RunEncoder :=
  mkRunEncoder buffer_len bit_width [].

Definition RunEncoder_Put (value : Z) (r : RunEncoder) : bool * RunEncoder :=
  let n := (run_bit_width r + 7) / 8 in
  let run := 2 :: le_bytes (Z.to_nat n) value in
  if Z.of_nat (length (run_written r ++ run)) <=? run_buffer_len r
  then (true, mkRunEncoder (run_buffer_len r) (run_bit_width r)
                (run_written r ++ run))
  else (false, r).

Definition RunEncoder_Flush (r : RunEncoder) : RunEncoder := r.

Definition RunEncoder_len (r : RunEncoder) : Z :=
  Z.of_nat (length (run_written r)).

End DictEncoder.

(** ** The dictionary decoder of [parquet/encoding-internal.h] *)

Module DictionaryDecoder.

Definition uint8_t : Type := Z.

Section Decoder.
Context {T : Type}.

(** [::arrow::util::RleDecoder] of the missing [arrow/util/rle-encoding.h]:
    [RleDecoder_new data len bit_width] is the constructor over [len] bytes
    at [data]; [GetBatchWithDict dictionary batch_size] returns the number
    of indices it could read, at most [batch_size], the dictionary values
    it stored for them, and the decoder afterwards. *)
Context {RleDecoder : Type}.
Variable RleDecoder_new : list uint8_t -> Z -> Z -> RleDecoder.
Variable GetBatchWithDict :
  list T -> Z -> RleDecoder -> Z * list T * RleDecoder.

(** The fields of [DictionaryDecoder<Type>]. *)
Record DictionaryDecoder : Type := mkDictionaryDecoder {
  num_values_ : Z;
  dictionary_ : list T;
  idx_decoder_ : RleDecoder
}.

(** The constructor: an empty dictionary and a default-constructed
    [idx_decoder_]. *)
Definition DictionaryDecoder_new (idx_decoder : RleDecoder)
    : DictionaryDecoder :=
  {| num_values_ := 0; dictionary_ := []; idx_decoder_ := idx_decoder |}.

(** [SetDict] of the primary template: the dictionary becomes the
    [values_left()] values [dictionary->Decode] yields, given here as
    [values]. *)
Definition SetDict (values : list T) (d : DictionaryDecoder)
    : DictionaryDecoder :=
  {| num_values_ := num_values_ d;
     dictionary_ := values;
     idx_decoder_ := idx_decoder_ d |}.

(** [SetDict] of [DictionaryDecoder<BooleanType>]. *)
Definition SetDict_Boolean (d : DictionaryDecoder) : result DictionaryDecoder :=
  Fail NotImplemented
    "Dictionary encoding is not implemented for boolean values".

(** [SetData(num_values, data, len)]: the first byte is the bit width of
    the indices that follow; with [len == 0] only [num_values_] is set. *)
Definition SetData (num_values : Z) (data : list uint8_t) (len : Z)
    (d : DictionaryDecoder) : result DictionaryDecoder :=
  if len =? 0 then
    Ok {| num_values_ := num_values;
          dictionary_ := dictionary_ d;
          idx_decoder_ := idx_decoder_ d |}
  else
    match data with
    | [] => Fault
    | bit_width :: data =>
        Ok {| num_values_ := num_values;
              dictionary_ := dictionary_ d;
              idx_decoder_ := RleDecoder_new data (len - 1) bit_width |}
    end.

(** [Decode(buffer, max_values)]: the decoder afterwards, the values
    written to [buffer] and the returned count. *)
Definition Decode (max_values : Z) (d : DictionaryDecoder)
    : result (DictionaryDecoder * list T * Z) :=
  let max_values := Z.min max_values (num_values_ d) in
  let '(decoded_values, buffer, idx_decoder) :=
    GetBatchWithDict (dictionary_ d) max_values (idx_decoder_ d) in
  if negb (decoded_values =? max_values) then
    Fail Eof "Unexpected end of stream"
  else
    Ok ({| num_values_ := num_values_ d - max_values;
           dictionary_ := dictionary_ d;
           idx_decoder_ := idx_decoder |},
        buffer, max_values).

End Decoder.

Arguments DictionaryDecoder : clear implicits.
Arguments mkDictionaryDecoder {T RleDecoder}.
Arguments num_values_ {T RleDecoder}.
Arguments dictionary_ {T RleDecoder}.
Arguments idx_decoder_ {T RleDecoder}.

(** Modelled from the spec: a decoder of the run format of section 4.C3
    for the streams [DictEncoder.RunEncoder] writes, RLE runs of one
    repetition: the header byte [1 << 1] and then the value in the bytes
    its bit width needs. It stands for the missing [RleDecoder] where an
    example needs a concrete one. *)
Record RunDecoder : Type := mkRunDecoder {
  run_data : list uint8_t;
  run_bit_width : Z
}.

Definition RunDecoder_new (data : list uint8_t) (len bit_width : Z)
    : RunDecoder :=
  mkRunDecoder (take (Z.to_nat len) data) bit_width.

(** The unsigned number whose bytes, least significant first, are
    [bytes]. *)
Fixpoint from_le_bytes (bytes : list uint8_t) : Z :=
  match bytes with
  | [] => 0
  | b :: rest => b + 256 * from_le_bytes rest
  end.

Fixpoint RunDecoder_read {T : Type} (dictionary : list T) (batch_size : nat)
    (r : RunDecoder) : list T * RunDecoder :=
  match batch_size with
  | O => ([], r)
  | S batch_size' =>
      let n := Z.to_nat ((run_bit_width r + 7) / 8) in
      match run_data r with
      | [] => ([], r)
      | header :: rest =>
          if (header =? 2) && (n <=? length rest)%nat then
            match at_index dictionary (from_le_bytes (take n rest)) with
            | Some v =>
                let '(vs, r') :=
                  RunDecoder_read dictionary batch_size'
                    (mkRunDecoder (drop n rest) (run_bit_width r)) in
                (v :: vs, r')
            | None => ([], r)
            end
          else ([], r)
      end
  end.

Definition RunDecoder_GetBatchWithDict {T : Type} (dictionary : list T)
    (batch_size : Z) (r : RunDecoder) : Z * list T * RunDecoder :=
  let '(vs, r') := RunDecoder_read dictionary (Z.to_nat batch_size) r in
  (Z.of_nat (length vs), vs, r').

End DictionaryDecoder.

(** ** The delta-bit-packed decoder of [parquet/encoding-internal.h] *)

Module DeltaBitPack.

Definition uint8_t : Type := Z.

(** Modelled from the spec: the unaligned bit reader of section 4.C3
    ([BitUtil::BitReader] of the missing [arrow/util/bit-stream-utils.h])
    over an immutable byte slice; [bit_offset] counts the bits consumed.
    Every read returns [None] when not enough bits remain. *)
Record BitReader : Type := mkBitReader {
  buffer : list uint8_t;
  bit_offset : Z
}.

Definition bits_left (r : BitReader) : Z :=
  8 * Z.of_nat (length (buffer r)) - bit_offset r.

(** Modelled from the spec: bit [i] of the slice, bits packed least
    significant first. *)
Definition bit_at (bytes : list uint8_t) (i : Z) : bool :=
  Z.testbit (default 0 (at_index bytes (i / 8))) (i mod 8).

Fixpoint read_bits (n : nat) (bytes : list uint8_t) (i : Z) : Z :=
  match n with
  | O => 0
  | S n' => Z.b2z (bit_at bytes i) + 2 * read_bits n' bytes (i + 1)
  end.

(** Modelled from the spec: read an unsigned integer of [num_bits] bits. *)
Definition GetValue (num_bits : Z) (r : BitReader) : option (Z * BitReader) :=
  if (num_bits <? 0) || (bits_left r <? num_bits) then None
  else Some (read_bits (Z.to_nat num_bits) (buffer r) (bit_offset r),
             mkBitReader (buffer r) (bit_offset r + num_bits)).

(** Modelled from the spec: read a byte-aligned value of one byte, skipping
    to the next byte boundary first. *)
Definition GetAligned (r : BitReader) : option (uint8_t * BitReader) :=
  let byte_offset := (bit_offset r + 7) / 8 in
  match at_index (buffer r) byte_offset with
  | Some b => Some (b, mkBitReader (buffer r) (8 * (byte_offset + 1)))
  | None => None
  end.

(** Modelled from the spec: the little-endian base-128 digits of a
    variable-length integer, at most [fuel] bytes, the last one without the
    continuation bit. *)
Fixpoint vlq_bytes (fuel : nat) (shift : Z) (acc : Z) (r : BitReader)
    : option (Z * BitReader) :=
  match fuel with
  | O => None
  | S fuel' =>
      match GetAligned r with
      | None => None
      | Some (b, r) =>
          let acc := Z.lor acc (Z.shiftl (Z.land b 127) shift) in
          if Z.land b 128 =? 0 then Some (acc, r)
          else vlq_bytes fuel' (shift + 7) acc r
      end
  end.

(** Modelled from the spec: read a variable-length unsigned integer into an
    [int32_t]; five bytes hold 32 bits. *)
Definition GetVlqInt (r : BitReader) : option (Z * BitReader) :=
  match vlq_bytes 5 0 0 r with
  | Some (v, r) => Some (to_int32 v, r)
  | None => None
  end.

(** Modelled from the spec: read a zig-zag signed variable-length integer
    into an [int32_t]. *)
Definition GetZigZagVlqInt (r : BitReader) : option (Z * BitReader) :=
  match vlq_bytes 5 0 0 r with
  | Some (v, r) =>
      let u := wrap_unsigned 32 v in
      Some (if Z.testbit u 0 then - (u / 2) - 1 else u / 2, r)
  | None => None
  end.

(** [Type::type] of the physical types the constructor looks at. *)
Inductive PhysicalType : Type :=
| BOOLEAN | INT32 | INT64 | INT96 | FLOAT | DOUBLE
| BYTE_ARRAY | FIXED_LEN_BYTE_ARRAY.

(** The fields of [DeltaBitPackDecoder<DType>]. [delta_bit_widths_] is
    [None] while the shared pointer is null and otherwise the content of the
    buffer it owns. *)
Record DeltaBitPackDecoder : Type := mkDecoder {
  num_values_ : Z;
  decoder_ : BitReader;
  values_current_block_ : Z;
  num_mini_blocks_ : Z;
  values_per_mini_block_ : Z;
  values_current_mini_block_ : Z;
  min_delta_ : Z;
  mini_block_idx_ : Z;
  delta_bit_widths_ : option (list uint8_t);
  delta_bit_width_ : Z;
  last_value_ : Z
}.

(** The constructor. It throws for a type other than [INT32] and [INT64]
    and initializes no field but the pool: the shared pointer
    [delta_bit_widths_] is null, and the other fields hold whatever the
    memory held, given as [uninit]. *)
Definition DeltaBitPackDecoder_new (type_num : PhysicalType)
    (uninit : DeltaBitPackDecoder) : result DeltaBitPackDecoder :=
  match type_num with
  | INT32 | INT64 =>
      Ok {| num_values_ := num_values_ uninit;
            decoder_ := decoder_ uninit;
            values_current_block_ := values_current_block_ uninit;
            num_mini_blocks_ := num_mini_blocks_ uninit;
            values_per_mini_block_ := values_per_mini_block_ uninit;
            values_current_mini_block_ := values_current_mini_block_ uninit;
            min_delta_ := min_delta_ uninit;
            mini_block_idx_ := mini_block_idx_ uninit;
            delta_bit_widths_ := None;
            delta_bit_width_ := delta_bit_width_ uninit;
            last_value_ := last_value_ uninit |}
  | _ => Fail Invalid "Delta bit pack encoding should only be for integer data."
  end.

(** [SetData(num_values, data, len)], with [data] the [len] bytes of the
    page: it sets [num_values_], [decoder_] and the two counters, and
    leaves the other fields, [delta_bit_widths_] among them, as they
    are. *)
Definition SetData (num_values : Z) (data : list uint8_t)
    (d : DeltaBitPackDecoder) : DeltaBitPackDecoder :=
  {| num_values_ := num_values;
     decoder_ := mkBitReader data 0;
     values_current_block_ := 0;
     num_mini_blocks_ := num_mini_blocks_ d;
     values_per_mini_block_ := values_per_mini_block_ d;
     values_current_mini_block_ := 0;
     min_delta_ := min_delta_ d;
     mini_block_idx_ := mini_block_idx_ d;
     delta_bit_widths_ := delta_bit_widths_ d;
     delta_bit_width_ := delta_bit_width_ d;
     last_value_ := last_value_ d |}.

(** [if (!decoder_.Get...(&x)) ParquetException::EofException();] *)
Definition or_eof {A : Type} (o : option A) : result A :=
  match o with
  | Some a => Ok a
  | None => Fail Eof "Unexpected end of stream"
  end.

(** The loop of [InitBlock] that reads one bit width per mini-block. *)
Definition read_bit_width (i : Z) (s : list uint8_t * BitReader)
    : result (list uint8_t * BitReader) :=
  '(b, r) ← or_eof (GetAligned s.2);
  Ok (<[Z.to_nat i := b]> s.1, r).

(** [InitBlock] *)
Definition InitBlock (d : DeltaBitPackDecoder) : result DeltaBitPackDecoder :=
  '(block_size, r) ← or_eof (GetVlqInt (decoder_ d));
  '(num_mini_blocks, r) ← or_eof (GetVlqInt r);
  '(values_current_block, r) ← or_eof (GetVlqInt r);
  '(last_value, r) ← or_eof (GetZigZagVlqInt r);
  if num_mini_blocks <? 0 then Fault
  else
    let bit_width_data := replicate (Z.to_nat num_mini_blocks) 0 in
    '(min_delta, r) ← or_eof (GetZigZagVlqInt r);
    '(bit_width_data, r) ←
      for_range (Z.to_nat num_mini_blocks) 0 read_bit_width (bit_width_data, r);
    if num_mini_blocks =? 0 then Fault
    else
      match at_index bit_width_data 0 with
      | None => Fault
      | Some width0 =>
          let values_per_mini_block :=
            to_uint64 (Z.quot block_size num_mini_blocks) in
          Ok {| num_values_ := num_values_ d;
                decoder_ := r;
                values_current_block_ := values_current_block;
                num_mini_blocks_ := num_mini_blocks;
                values_per_mini_block_ := values_per_mini_block;
                values_current_mini_block_ := values_per_mini_block;
                min_delta_ := min_delta;
                mini_block_idx_ := 0;
                delta_bit_widths_ := Some bit_width_data;
                delta_bit_width_ := width0;
                last_value_ := last_value |}
      end.

(** The tail of an iteration of [GetInternal]: read one delta at
    [delta_bit_width_], add [min_delta_] in 64 bits, add the sum cut to
    [int32_t] to the 32-bit [last_value_]. Returns the value stored in
    [buffer[i]]. *)
Definition read_delta (d : DeltaBitPackDecoder)
    : result (DeltaBitPackDecoder * Z) :=
  '(delta, r) ← or_eof (GetValue (delta_bit_width_ d) (decoder_ d));
  let delta := to_int64 (delta + min_delta_ d) in
  let last_value := to_int32 (last_value_ d + to_int32 delta) in
  Ok ({| num_values_ := num_values_ d;
         decoder_ := r;
         values_current_block_ := values_current_block_ d;
         num_mini_blocks_ := num_mini_blocks_ d;
         values_per_mini_block_ := values_per_mini_block_ d;
         values_current_mini_block_ :=
           to_uint64 (values_current_mini_block_ d - 1);
         min_delta_ := min_delta_ d;
         mini_block_idx_ := mini_block_idx_ d;
         delta_bit_widths_ := delta_bit_widths_ d;
         delta_bit_width_ := delta_bit_width_ d;
         last_value_ := last_value |},
      last_value).

(** [++mini_block_idx_] and the switch to the next mini-block of the
    current block. *)
Definition next_mini_block (width : Z) (d : DeltaBitPackDecoder)
    : DeltaBitPackDecoder :=
  {| num_values_ := num_values_ d;
     decoder_ := decoder_ d;
     values_current_block_ := values_current_block_ d;
     num_mini_blocks_ := num_mini_blocks_ d;
     values_per_mini_block_ := values_per_mini_block_ d;
     values_current_mini_block_ := values_per_mini_block_ d;
     min_delta_ := min_delta_ d;
     mini_block_idx_ := to_uint64 (mini_block_idx_ d + 1);
     delta_bit_widths_ := delta_bit_widths_ d;
     delta_bit_width_ := width;
     last_value_ := last_value_ d |}.

(** One iteration of the loop of [GetInternal]. [bit_width_data] is the
    pointer taken before the loop: the content [delta_bit_widths_] had when
    the call started, also after [InitBlock] has replaced the buffer. *)
Definition GetInternal_step (bit_width_data : list uint8_t)
    (d : DeltaBitPackDecoder) : result (DeltaBitPackDecoder * Z) :=
  if values_current_mini_block_ d =? 0 then
    let idx := to_uint64 (mini_block_idx_ d + 1) in
    match delta_bit_widths_ d with
    | None => Fault
    | Some widths =>
        if idx <? Z.of_nat (length widths) then
          match at_index bit_width_data idx with
          | None => Fault
          | Some width => read_delta (next_mini_block width d)
          end
        else
          d ← InitBlock d;
          Ok (d, last_value_ d)
    end
  else read_delta d.

(** The loop of [GetInternal]: the values stored in [buffer], in order. *)
Fixpoint GetInternal_loop (n : nat) (bit_width_data : list uint8_t)
    (d : DeltaBitPackDecoder) (out : list Z)
    : result (DeltaBitPackDecoder * list Z) :=
  match n with
  | O => Ok (d, out)
  | S n' =>
      '(d, v) ← GetInternal_step bit_width_data d;
      GetInternal_loop n' bit_width_data d (out ++ [v])
  end.

(** [GetInternal(buffer, max_values)]: the decoder afterwards, the values
    written to [buffer] and the returned count. [buffer] holds [int32_t] or
    [int64_t] elements; the conversion from the 32-bit [last_value_] keeps
    the number in both cases. Before the loop, line 439 takes
    [delta_bit_widths_->data()], which dereferences the pointer. *)
Definition GetInternal (max_values : Z) (d : DeltaBitPackDecoder)
    : result (DeltaBitPackDecoder * list Z * Z) :=
  let max_values := Z.min max_values (num_values_ d) in
  bit_width_data ←
    match delta_bit_widths_ d with
    | None => Fault
    | Some widths => Ok widths
    end;
  '(d, out) ← GetInternal_loop (Z.to_nat max_values) bit_width_data d [];
  Ok ({| num_values_ := num_values_ d - max_values;
         decoder_ := decoder_ d;
         values_current_block_ := values_current_block_ d;
         num_mini_blocks_ := num_mini_blocks_ d;
         values_per_mini_block_ := values_per_mini_block_ d;
         values_current_mini_block_ := values_current_mini_block_ d;
         min_delta_ := min_delta_ d;
         mini_block_idx_ := mini_block_idx_ d;
         delta_bit_widths_ := delta_bit_widths_ d;
         delta_bit_width_ := delta_bit_width_ d;
         last_value_ := last_value_ d |},
      out, max_values).

(** [Decode] *)
Definition Decode (max_values : Z) (d : DeltaBitPackDecoder)
    : result (DeltaBitPackDecoder * list Z * Z) :=
  GetInternal max_values d.

End DeltaBitPack.

(** * Properties *)

(** ** Integers and buffers *)

Lemma at_index_Some {A : Type} (buf : list A) (i : Z) (x : A) :
  at_index buf i = Some x <-> 0 <= i /\ buf !! Z.to_nat i = Some x.
Proof.
  unfold at_index. destruct (Z.ltb_spec i 0); split.
  - discriminate.
  - intros [? _]. lia.
  - auto.
  - tauto.
Qed.

Lemma at_index_lookup {A : Type} (l : list A) (i : Z) :
  0 <= i -> at_index l i = l !! Z.to_nat i.
Proof. intros H. unfold at_index. now destruct (Z.ltb_spec i 0); [lia|]. Qed.

Lemma wrap_signed_id (w z : Z) :
  0 < w -> - 2 ^ (w - 1) <= z < 2 ^ (w - 1) -> wrap_signed w z = z.
Proof.
  intros Hw Hz. unfold wrap_signed.
  assert (E : 2 ^ w = 2 * 2 ^ (w - 1)).
  { replace w with (Z.succ (w - 1)) at 1 by lia. apply Z.pow_succ_r. lia. }
  rewrite Z.mod_small; lia.
Qed.

Lemma to_int32_id (z : Z) : - 2 ^ 31 <= z < 2 ^ 31 -> to_int32 z = z.
Proof. intros. unfold to_int32. apply wrap_signed_id; simpl; lia. Qed.

Lemma to_int32_range (z : Z) : - 2 ^ 31 <= to_int32 z < 2 ^ 31.
Proof.
  unfold to_int32, wrap_signed. change (2 ^ (32 - 1)) with (2 ^ 31).
  pose proof (Z.mod_pos_bound (z + 2 ^ 31) (2 ^ 32) ltac:(lia)). lia.
Qed.

Lemma wrap_signed_mod (w z : Z) :
  0 < w -> wrap_signed w z mod 2 ^ w = z mod 2 ^ w.
Proof.
  intros Hw. unfold wrap_signed.
  assert (E : 2 ^ w = 2 * 2 ^ (w - 1)).
  { replace w with (Z.succ (w - 1)) at 1 by lia. apply Z.pow_succ_r. lia. }
  assert (0 < 2 ^ (w - 1)) by (apply Z.pow_pos_nonneg; lia).
  rewrite Zminus_mod, Zmod_mod, <- Zminus_mod.
  f_equal. lia.
Qed.

(** Wrapping an argument of a sum first does not change the wrapped sum. *)
Lemma wrap_signed_add_r (w a b : Z) :
  0 < w -> wrap_signed w (a + wrap_signed w b) = wrap_signed w (a + b).
Proof.
  intros Hw. unfold wrap_signed at 1 3. f_equal. 
  rewrite <- !Z.add_assoc, (Z.add_comm (wrap_signed w b)), (Z.add_comm b).
  rewrite !Z.add_assoc.
  rewrite (Zplus_mod _ (wrap_signed w b)), (Zplus_mod _ b).
  now rewrite wrap_signed_mod.
Qed.

Lemma to_int32_add_r (a b : Z) : to_int32 (a + to_int32 b) = to_int32 (a + b).
Proof. apply wrap_signed_add_r. lia. Qed.

Lemma to_int32_idem (z : Z) : to_int32 (to_int32 z) = to_int32 z.
Proof. apply to_int32_id, to_int32_range. Qed.

Lemma to_int32_add_l (a b : Z) : to_int32 (to_int32 a + b) = to_int32 (a + b).
Proof. rewrite (Z.add_comm (to_int32 a)), to_int32_add_r. f_equal. lia. Qed.

(** An invariant of the loop body holds after the loop. *)
Lemma for_range_invariant {S : Type} (P : S -> Prop) (body : Z -> S -> result S)
    (n : nat) (i : Z) (s s' : S) :
  (forall j a b, P a -> body j a = Ok b -> P b) ->
  P s -> for_range n i body s = Ok s' -> P s'.
Proof.
  intros Hbody. revert i s. induction n as [|n IH]; intros i s Hs; cbn.
  - now intros [= <-].
  - destruct (body i s) as [a| | |] eqn:E; cbn; try discriminate.
    apply IH. eapply Hbody; eauto.
Qed.

(** Two loop bodies that agree on the positions of the loop give the same
    loop. *)
Lemma for_range_ext {S : Type} (f g : Z -> S -> result S) (n : nat) (i0 : Z)
    (s : S) :
  (forall i s, i0 <= i < i0 + Z.of_nat n -> f i s = g i s) ->
  for_range n i0 f s = for_range n i0 g s.
Proof.
  revert i0 s. induction n as [|n IH]; intros i0 s Hfg; [reflexivity|].
  cbn [for_range]. rewrite (Hfg i0 s) by lia.
  destruct (g i0 s) as [s'| | |]; cbn [mbind result_bind]; try reflexivity.
  apply IH. intros i s0 Hi. apply Hfg. lia.
Qed.

(** ** The memo table *)

Module MemoTableProofs.
Import DictEncoder.

Section Index.
Context {K : Type} `{EqDecision K}.

Lemma index_of_Some (key : K) (keys : list K) (i : Z) :
  index_of key keys = Some i -> keys !! Z.to_nat i = Some key /\ 0 <= i.
Proof.
  revert i. induction keys as [|k keys IH]; intros i; cbn; [discriminate|].
  destruct (decide (k = key)) as [->|].
  - intros [= <-]. now split.
  - destruct (index_of key keys) as [j|]; cbn; [|discriminate].
    intros [= <-]. destruct (IH j eq_refl) as [Hj H0].
    split; [|lia]. replace (Z.to_nat (j + 1)) with (S (Z.to_nat j)) by lia.
    exact Hj.
Qed.

Lemma index_of_None (key : K) (keys : list K) :
  index_of key keys = None <-> key ∉ keys.
Proof.
  induction keys as [|k keys IH]; cbn.
  - split; [intros _; apply not_elem_of_nil|reflexivity].
  - rewrite not_elem_of_cons. destruct (decide (k = key)) as [->|Hne].
    + split; [discriminate|]. intros [? _]. congruence.
    + destruct (index_of key keys); cbn.
      * split; [discriminate|]. intros [_ Hn]. now apply IH in Hn.
      * split; [|reflexivity]. intros _. split; [congruence|now apply IH].
Qed.

End Index.

End MemoTableProofs.

(** ** The null kernel *)

Module NullKernelProofs.
Import HashKernel.

Section Null.
Context {T : Type}.
Variable HashValue : T -> Z.

(** The loop of the null kernel appends one null per position and leaves
    the table fields alone. *)
Lemma null_loop_DictEncode (n : nat) (i : Z) (t : HashTable) (b : Int32Builder) :
  for_range n i
    (fun _ k => Ok (mkNullKernel (null_table k) (null_action k ++ [None])))
    (mkNullKernel t b)
  = Ok (mkNullKernel t (b ++ replicate n None)).
Proof.
  revert i b. induction n as [|n IH]; intros i b; simpl.
  - now rewrite app_nil_r.
  - unfold mbind, result_bind. rewrite IH. simpl.
    now rewrite <- app_assoc.
Qed.

Lemma null_loop_Unique (n : nat) (i : Z) (t : HashTable) (u : unit) :
  for_range n i
    (fun _ k => Ok (mkNullKernel (null_table k) (null_action k)))
    (mkNullKernel t u)
  = Ok (mkNullKernel t u).
Proof.
  revert i. induction n as [|n IH]; intros i; simpl; [done|].
  unfold mbind, result_bind. now rewrite IH.
Qed.

(** C9. For an array of the null type with any length [N] (and whatever
    its other fields hold), [Unique] returns an array of length 0,
    [DictionaryEncode] returns [N] indices that are all null, and after
    either call the kernel is the null kernel with the table fields as
    constructed: not initialized and no hash table allocated. *)
Theorem null_type_kernel (N nc off : Z) (b0 : option (list bool))
    (b1 : list T) :
  let arr := mkArrayData NA N nc off b0 b1 in
  Unique HashValue (ARRAY arr) = Ok []
  /\ DictionaryEncode HashValue (ARRAY arr)
     = Ok (DICT_ARRAY (mkDictionaryArray (replicate (Z.to_nat N) None) []))
  /\ (func ← GetUniqueKernel NA; InvokeHash HashValue func (ARRAY arr))
     = Ok (NullHasher (mkNullKernel HashTable_new tt), [], [])
  /\ (func ← GetDictionaryEncodeKernel NA;
      InvokeHash HashValue func (ARRAY arr))
     = Ok (NullHasher (mkNullKernel HashTable_new []),
           [replicate (Z.to_nat N) None], [])
  /\ hash_table_ HashTable_new = None
  /\ initialized_ HashTable_new = false.
Proof.
  intros arr.
  unfold Unique, DictionaryEncode, GetUniqueKernel, GetDictionaryEncodeKernel,
    GetKernel, InvokeHash, Hasher_Call, Hasher_Append, NullKernel_Append,
    NullKernel_new, NullKernel_Init.
  cbn [mbind result_bind fst snd null_table null_action initialized_
       HashTable_new Reserve UniqueImpl DictEncodeImpl arr_length arr
       Datum_type type].
  cbn [ObserveNull UniqueImpl DictEncodeImpl].
  rewrite !null_loop_Unique, !null_loop_DictEncode.
  repeat split.
Qed.

End Null.
End NullKernelProofs.

(** ** The cast kernel *)

Module CastProofs.
Import Cast.

(** The vectors of [TestCast.ToIntDowncastSafe], [ToIntDowncastUnsafe] and
    [OverflowInNullSlot]. *)
Definition is_valid5 : list bool := [true; false; true; true; true].

Example ToIntDowncastSafe_v5 :
  check_pass (cast_int safe Int16 UInt8 (ArrayFromVector is_valid5 [0; 100; 200; 1; 2]))
             (ArrayFromVector is_valid5 [0; 100; 200; 1; 2]) = true.
Proof. reflexivity. Qed.

Example ToIntDowncastSafe_v6 :
  check_fails (cast_int safe Int16 UInt8 (ArrayFromVector is_valid5 [0; 100; 256; 0; 0])) = true.
Proof. reflexivity. Qed.

Example ToIntDowncastSafe_v7 :
  check_fails (cast_int safe Int16 UInt8 (ArrayFromVector is_valid5 [0; 100; -1; 0; 0])) = true.
Proof. reflexivity. Qed.

Example ToIntDowncastSafe_v9 :
  check_fails (cast_int safe Int32 Int16 (ArrayFromVector is_valid5 [0; 1000; 2000; 70000; 0])) = true.
Proof. reflexivity. Qed.

Example ToIntDowncastUnsafe_v7 :
  check_pass (cast_int (mkCastOptions true false) Int16 UInt8
                (ArrayFromVector is_valid5 [0; 100; -1; 0; 0]))
             (ArrayFromVector is_valid5 [0; 100; 255; 0; 0]) = true.
Proof. reflexivity. Qed.

Example ToIntDowncastUnsafe_v9 :
  check_pass (cast_int (mkCastOptions true false) Int32 Int16
                (ArrayFromVector is_valid5 [0; 1000; 2000; 70000; 0]))
             (ArrayFromVector is_valid5 [0; 1000; 2000; 4464; 0]) = true.
Proof. reflexivity. Qed.

Example ToIntDowncastUnsafe_v10 :
  check_pass (cast_int (mkCastOptions true false) Int32 Int16
                (ArrayFromVector is_valid5 [0; 1000; 2000; -70000; 0]))
             (ArrayFromVector is_valid5 [0; 1000; 2000; -4464; 0]) = true.
Proof. reflexivity. Qed.

Example OverflowInNullSlot_v11 :
  check_pass (cast_int safe Int32 Int16 (ArrayFromVector is_valid5 [0; 70000; 2000; 1000; 0]))
             (ArrayFromVector is_valid5 [0; 0; 2000; 1000; 0]) = true.
Proof. reflexivity. Qed.

(** Some vectors of [TestCast.TimestampToTimestamp]. *)
Example TimestampToTimestamp_v3 :
  check_pass (cast_timestamp safe SECOND NANO (ArrayFromVector is_valid5 [0; 100; 200; 1; 2]))
             (ArrayFromVector is_valid5
                [0; 100000000000; 200000000000; 1000000000; 2000000000]) = true.
Proof. reflexivity. Qed.

Example TimestampToTimestamp_v8 :
  check_pass (cast_timestamp (mkCastOptions false true) MILLI SECOND
                (ArrayFromVector is_valid5 [0; 100123; 200456; 1123; 2456]))
             (ArrayFromVector is_valid5 [0; 100; 200; 1; 2]) = true.
Proof. reflexivity. Qed.

Example TimestampToTimestamp_v8_fails :
  check_fails (cast_timestamp safe MILLI SECOND
                 (ArrayFromVector is_valid5 [0; 100123; 200456; 1123; 2456])) = true.
Proof. reflexivity. Qed.

Example TimestampToTimestamp_v10_fails :
  check_fails (cast_timestamp safe NANO SECOND
                 (ArrayFromVector is_valid5
                    [0; 100123000000; 200456000000; 1123000000; 2456000000])) = true.
Proof. reflexivity. Qed.

Lemma bit_width_pos (t : IntType) : 0 < bit_width t.
Proof. destruct t; simpl; lia. Qed.

(** The truncation to [t] is always a value of [t]. *)
Lemma truncate_representable (t : IntType) (v : Z) : representable t (truncate t v).
Proof.
  unfold representable, truncate, min_value, max_value, wrap_signed, wrap_unsigned.
  destruct t; cbn [is_signed bit_width];
    match goal with
    | |- context [?a mod ?m] =>
        pose proof (Z.mod_pos_bound a m ltac:(lia))
    end; lia.
Qed.

(** A value survives the truncation to [t] exactly when it is a value of
    [t]. *)
Lemma truncate_id_iff (t : IntType) (v : Z) :
  truncate t v = v <-> representable t v.
Proof.
  split.
  - intros <-. apply truncate_representable.
  - unfold representable, truncate, min_value, max_value, wrap_signed, wrap_unsigned.
    destruct t; cbn [is_signed bit_width]; intros H;
      rewrite Z.mod_small; lia.
Qed.

Lemma loses_value_true (tgt : IntType) (s : Slot) :
  loses_value tgt s = true <->
  is_valid s = true /\ ~ representable tgt (value s).
Proof.
  unfold loses_value. rewrite andb_true_iff, negb_true_iff, Z.eqb_neq.
  now rewrite truncate_id_iff.
Qed.

Lemma existsb_elem {A : Type} (f : A -> bool) (l : list A) :
  existsb f l = true <-> exists x, x ∈ l /\ f x = true.
Proof.
  rewrite existsb_exists. split; intros (x & Hx & Hf); exists x; split; auto;
    now apply list_elem_of_In.
Qed.

(** C2. For every integer array [A] of type [src] and every target type
    [tgt] with fewer bits, the cast with [allow_int_overflow = false]
    returns [Invalid] if and only if some non-null element of [A] is not
    representable in [tgt], succeeds otherwise, and when it succeeds the
    cast of the result back to [src] succeeds with an array equal to [A] at
    every non-null position. *)
Theorem cast_int_downcast_safe (src tgt : IntType) (A : Array) :
  bit_width tgt < bit_width src ->
  well_typed src A ->
  (check_fails (cast_int safe src tgt A) = true <->
   exists s, s ∈ A /\ is_valid s = true /\ ~ representable tgt (value s))
  /\ (check_fails (cast_int safe src tgt A) = false ->
      is_ok (cast_int safe src tgt A) = true)
  /\ (forall B, cast_int safe src tgt A = Ok B ->
      exists C, cast_int safe tgt src B = Ok C /\ arrays_equal A C).
Proof.
  intros Hnarrow Htyped.
  pose proof (proj2 (Z.ltb_lt _ _) Hnarrow) as Hlt.
  unfold cast_int. cbn [allow_int_overflow safe negb]. rewrite Hlt. cbn [andb].
  destruct (existsb (loses_value tgt) A) eqn:E.
  - split; [|split].
    + cbn. split; [intros _|reflexivity].
      apply existsb_elem in E as (s & Hs & Hl).
      apply loses_value_true in Hl. exists s. tauto.
    + cbn. discriminate.
    + intros B HB. discriminate.
  - split; [|split].
    + cbn. split; [discriminate|].
      intros (s & Hs & Hv & Hr). exfalso.
      assert (existsb (loses_value tgt) A = true) as E'; [|congruence].
      apply existsb_elem. exists s. split; [done|].
      apply loses_value_true. tauto.
    + reflexivity.
    + intros B [= <-].
      assert ((bit_width src <? bit_width tgt) = false) as -> by (apply Z.ltb_ge; lia).
      cbn [andb]. eexists. split; [reflexivity|].
      unfold arrays_equal. rewrite map_map. cbn [is_valid value].
      apply Forall2_fmap_r, Forall_Forall2_diag, Forall_forall.
      intros s Hs. split; [reflexivity|]. intros Hv.
      assert (representable tgt (value s)) as Hr.
      { apply truncate_id_iff. destruct (Z.eq_dec (truncate tgt (value s)) (value s)) as [|n]; [done|].
        exfalso. assert (existsb (loses_value tgt) A = true) as E'; [|congruence].
        apply existsb_elem. exists s. split; [done|].
        unfold loses_value. rewrite Hv. cbn. now apply negb_true_iff, Z.eqb_neq. }
      apply truncate_id_iff in Hr. rewrite Hr.
      symmetry. apply truncate_id_iff. now apply Htyped.
Qed.

(** The theorem at the vectors [v8] of [ToIntDowncastSafe]. *)
Lemma cast_int_downcast_safe_witness :
  let A := ArrayFromVector is_valid5 [0; 1000; 2000; 1; 2] in
  (check_fails (cast_int safe Int32 Int16 A) = true <->
   exists s, s ∈ A /\ is_valid s = true /\ ~ representable Int16 (value s))
  /\ (check_fails (cast_int safe Int32 Int16 A) = false ->
      is_ok (cast_int safe Int32 Int16 A) = true)
  /\ (forall B, cast_int safe Int32 Int16 A = Ok B ->
      exists C, cast_int safe Int16 Int32 B = Ok C /\ arrays_equal A C).
Proof.
  intros A. apply (cast_int_downcast_safe Int32 Int16 A).
  - simpl. lia.
  - intros s Hs _. unfold A, ArrayFromVector, is_valid5 in Hs. cbn in Hs.
    unfold representable, min_value, max_value. cbn [is_signed bit_width].
    repeat (apply elem_of_cons in Hs as [->|Hs]; [cbn; lia|]).
    now apply elem_of_nil in Hs.
Defined.







(** Two columns that differ only in the value bytes of null slots give
    the same answer to a test that looks at non-null slots only. *)
Lemma existsb_arrays_equal (f : Slot -> bool) (A B : Array) :
  (forall a b, is_valid a = is_valid b ->
               (is_valid a = true -> value a = value b) -> f a = f b) ->
  arrays_equal A B -> existsb f A = existsb f B.
Proof.
  intros Hf. induction 1 as [|a b A B [Hv Hval] _ IH]; [reflexivity|].
  cbn. now rewrite IH, (Hf a b Hv Hval).
Qed.

Lemma map_arrays_equal (g : Z -> Z) (A B : Array) :
  arrays_equal A B ->
  arrays_equal (map (fun s => mkSlot (is_valid s) (g (value s))) A)
               (map (fun s => mkSlot (is_valid s) (g (value s))) B).
Proof.
  induction 1 as [|a b A B [Hv Hval] _ IH]; constructor; [|exact IH].
  cbn. split; [exact Hv|]. intros Ha. now rewrite Hval.
Qed.

(** C6. Two input arrays with the same validity bits and the same values
    at the non-null positions, whatever bytes their null slots hold, get
    the same outcome from the integer cast and from the timestamp cast
    under every setting of the options, [allow_int_overflow = false] and
    [allow_time_truncate = false] included: both fail with the same code,
    or both succeed with the same validity bits and the same values at the
    non-null positions. *)
Theorem cast_ignores_null_slots (options : CastOptions) (src tgt : IntType)
    (u v : TimeUnit) (A B : Array) :
  arrays_equal A B ->
  same_outcome (cast_int options src tgt A) (cast_int options src tgt B)
  /\ same_outcome (cast_timestamp options u v A)
                  (cast_timestamp options u v B).
Proof.
  intros HAB. split.
  - unfold cast_int.
    rewrite (existsb_arrays_equal (loses_value tgt) A B); [|  |exact HAB].
    + destruct (_ && _ && _); cbn; [reflexivity|].
      now apply map_arrays_equal.
    + intros a b Hv Hval. unfold loses_value. rewrite <- Hv.
      destruct (is_valid a); [|reflexivity]. now rewrite Hval.
  - unfold cast_timestamp.
    rewrite (existsb_arrays_equal (discards_subunits (unit_ratio u v)) A B);
      [|  |exact HAB].
    + destruct (coarser u v); cbn.
      { now apply (map_arrays_equal (fun x => to_int64 (x * unit_ratio u v))). }
      destruct (multiplier u =? multiplier v); cbn; [exact HAB|].
      destruct (_ && _); cbn; [reflexivity|].
      now apply (map_arrays_equal (fun x => Z.quot x (unit_ratio u v))).
    + intros a b Hv Hval. unfold discards_subunits. rewrite <- Hv.
      destruct (is_valid a); [|reflexivity]. now rewrite Hval.
Qed.

(** The theorem at the array of [OverflowInNullSlot], whose null slot
    holds 70000, and at the same array with 0 in the null slot. *)
Lemma cast_ignores_null_slots_witness :
  let A := ArrayFromVector is_valid5 [0; 70000; 2000; 1000; 0] in
  let B := ArrayFromVector is_valid5 [0; 0; 2000; 1000; 0] in
  same_outcome (cast_int safe Int32 Int16 A) (cast_int safe Int32 Int16 B)
  /\ same_outcome (cast_timestamp safe MILLI SECOND A)
                  (cast_timestamp safe MILLI SECOND B).
Proof.
  intros A B. apply (cast_ignores_null_slots safe Int32 Int16 MILLI SECOND A B).
  unfold A, B, arrays_equal, ArrayFromVector, is_valid5. cbn.
  repeat constructor; cbn; congruence.
Defined.

End CastProofs.

(** ** The dictionary encoder *)

Module DictEncoderProofs.
Import DictEncoder MemoTableProofs.

Section Indices.
Context {K : Type} `{EqDecision K}.
Context {RleEncoder : Type}.
Variable RleEncoder_new : Z -> Z -> RleEncoder.
Variable RleEncoder_Put : Z -> RleEncoder -> bool * RleEncoder.
Variable RleEncoder_Flush : RleEncoder -> RleEncoder.
Variable RleEncoder_len : RleEncoder -> Z.
Variable RleEncoder_buffer : RleEncoder -> list uint8_t.

(** [RleEncoder::len()] is a number of bytes. *)
Hypothesis RleEncoder_len_nonneg : forall r, 0 <= RleEncoder_len r.

Local Abbreviation WriteIndices :=
  (WriteIndices RleEncoder_new RleEncoder_Put RleEncoder_Flush RleEncoder_len
     RleEncoder_buffer).
Local Abbreviation put_indices := (put_indices RleEncoder_Put).

(** [WriteIndices] returns -1 exactly when a [Put] of the encoder fails. *)
Lemma WriteIndices_minus_one (buffer_len : Z) (e : DictEncoder K) :
  (WriteIndices buffer_len e).1.1 = -1 <->
  put_indices (buffered_indices_ e)
    (RleEncoder_new (buffer_len - 1) (bit_width e)) = None.
Proof.
  unfold DictEncoder.WriteIndices.
  destruct (put_indices _ _) as [r|]; cbn; [|tauto].
  split; [|discriminate].
  pose proof (RleEncoder_len_nonneg (RleEncoder_Flush r)). lia.
Qed.

(** C10. When [WriteIndices] returns -1 (a [Put] of the run encoder did
    not fit the buffer), the encoder is left as it was, its buffered
    indices included; a later call with a buffer in which every [Put]
    succeeds feeds the whole original index sequence to a fresh run
    encoder, returns one plus its length, writes the bit width byte and the
    encoder's bytes, and only then clears the indices. *)
Theorem WriteIndices_failure_keeps_indices (buffer_len : Z)
    (e : DictEncoder K) :
  (WriteIndices buffer_len e).1.1 = -1 ->
  (WriteIndices buffer_len e).2 = e
  /\ buffered_indices_ (WriteIndices buffer_len e).2 = buffered_indices_ e
  /\ forall buffer_len2 encoder,
       put_indices (buffered_indices_ e)
         (RleEncoder_new (buffer_len2 - 1) (bit_width e)) = Some encoder ->
       WriteIndices buffer_len2 (WriteIndices buffer_len e).2
       = (1 + RleEncoder_len (RleEncoder_Flush encoder),
          wrap_unsigned 8 (bit_width e)
            :: RleEncoder_buffer (RleEncoder_Flush encoder),
          ClearIndices e).
Proof.
  intros Hfail. apply WriteIndices_minus_one in Hfail.
  assert ((WriteIndices buffer_len e).2 = e) as He.
  { unfold DictEncoder.WriteIndices. now rewrite Hfail. }
  rewrite He. repeat split.
  intros buffer_len2 encoder Hput.
  unfold DictEncoder.WriteIndices. now rewrite Hput.
Qed.

End Indices.

(** An encoder holding the indices [0; 1; 0] over a dictionary of two
    entries. *)
Definition three_indices : DictEncoder Z :=
  {| buffered_indices_ := [0; 1; 0];
     dict_encoded_size_ := 8;
     type_length_ := -1;
     memo_table_ := mkMemoTable [10; 20] |}.

Lemma RunEncoder_len_nonneg (r : RunEncoder) : 0 <= RunEncoder_len r.
Proof. unfold RunEncoder_len. lia. Qed.

(** The theorem at [three_indices] with a buffer of 5 bytes, in which the
    third run does not fit, followed by a buffer of 16 bytes. *)
Lemma WriteIndices_failure_keeps_indices_witness :
  (WriteIndices RunEncoder_new RunEncoder_Put RunEncoder_Flush RunEncoder_len
     run_written 5 three_indices).1.1 = -1
  /\ WriteIndices RunEncoder_new RunEncoder_Put RunEncoder_Flush RunEncoder_len
       run_written 16
       (WriteIndices RunEncoder_new RunEncoder_Put RunEncoder_Flush
          RunEncoder_len run_written 5 three_indices).2
     = (7, [1; 2; 0; 2; 1; 2; 0], ClearIndices three_indices).
Proof.
  split; [reflexivity|].
  exact (proj2 (proj2 (WriteIndices_failure_keeps_indices
                         RunEncoder_new RunEncoder_Put RunEncoder_Flush
                         RunEncoder_len run_written RunEncoder_len_nonneg
                         5 three_indices eq_refl))
           16 (mkRunEncoder 15 1 [2; 0; 2; 1; 2; 0]) eq_refl).
Defined.

Lemma bytes_at_length (p : option (list uint8_t)) (n : Z) (k : list uint8_t) :
  bytes_at p n = Ok k -> 0 <= n /\ Z.of_nat (length k) = n.
Proof.
  unfold bytes_at.
  destruct (Z.ltb_spec n 0); [discriminate|].
  destruct (Z.ltb_spec (Z.of_nat (length (default [0] p))) n); [discriminate|].
  intros [= <-]. rewrite length_take. split; [lia|].
  rewrite Nat2Z.inj_min, Z2Nat.id by lia. now apply Z.min_l.
Qed.

Section Counter.
Context {T K : Type} `{EqDecision K}.
Variable DType : Specialization T K.

(** What ties [Put] to [WriteDict] in each of the three pairs: the number
    [Put] adds for a new value is, as an [int], the number of bytes
    [WriteDict] writes for its entry. *)
Definition adds_entry_size (type_length : Z) : Prop :=
  forall v k, memo_key DType type_length v = Ok k ->
    to_int32 (on_not_found_size DType type_length v)
    = to_int32 (Z.of_nat (length (write_entry DType type_length k))).

(** The counter is the 32-bit reading of the number of bytes of the
    dictionary. *)
Definition counts_bytes (e : DictEncoder K) : Prop :=
  dict_encoded_size e = to_int32 (Z.of_nat (length (WriteDict DType e))).

(** What a single [Put] does: on a value whose key is in the table, only
    the index is buffered; on a new value the key is appended and the
    counter grows by the number of the specialization. *)
Lemma Put_spec (v : T) (e e' : DictEncoder K) :
  Put DType v e = Ok e' ->
  exists key, memo_key DType (type_length_ e) v = Ok key
  /\ type_length_ e' = type_length_ e
  /\ ((exists i, index_of key (memo_keys (memo_table_ e)) = Some i
       /\ memo_table_ e' = memo_table_ e
       /\ dict_encoded_size e' = dict_encoded_size e
       /\ buffered_indices_ e' = buffered_indices_ e ++ [i])
      \/ ((key ∉ memo_keys (memo_table_ e))
          /\ memo_keys (memo_table_ e') = memo_keys (memo_table_ e) ++ [key]
          /\ dict_encoded_size e'
             = to_int32 (dict_encoded_size e
                         + on_not_found_size DType (type_length_ e) v)
          /\ buffered_indices_ e'
             = buffered_indices_ e ++ [num_entries e])).
Proof.
  unfold Put. destruct (memo_key DType (type_length_ e) v) as [key| | |] eqn:Ek;
    cbn; try discriminate.
  unfold GetOrInsert.
  destruct (index_of key (memo_keys (memo_table_ e))) as [i|] eqn:Ei;
    intros [= <-]; exists key; cbn; (split; [reflexivity|]); (split; [reflexivity|]).
  - left. exists i. repeat split. exact Ei.
  - right. apply index_of_None in Ei. repeat split. exact Ei.
Qed.

Lemma Put_counts_bytes (v : T) (e e' : DictEncoder K) :
  adds_entry_size (type_length_ e) ->
  counts_bytes e -> Put DType v e = Ok e' -> counts_bytes e'.
Proof.
  intros Hlaw Hinv HPut.
  destruct (Put_spec v e e' HPut) as (key & Hkey & Htl & [Hfound|Hnew]).
  - destruct Hfound as (i & _ & Hmemo & Hsize & _).
    unfold counts_bytes, WriteDict in *. now rewrite Hmemo, Htl, Hsize.
  - destruct Hnew as (_ & Hmemo & Hsize & _).
    unfold counts_bytes, WriteDict in *. rewrite Hmemo, Htl, Hsize, Hinv.
    rewrite map_app, concat_app, length_app. cbn [map concat].
    rewrite app_nil_r, Nat2Z.inj_add.
    rewrite to_int32_add_l, <- to_int32_add_r, (Hlaw v key Hkey).
    now rewrite to_int32_add_r.
Qed.

Lemma Put_type_length (v : T) (e e' : DictEncoder K) :
  Put DType v e = Ok e' -> type_length_ e' = type_length_ e.
Proof. intros H1. destruct (Put_spec v e e' H1) as (? & ? & ? & _). done. Qed.

(** Every call keeps the invariant. *)
Lemma call_counts_bytes (tl : Z) (c : Call) (e e' : DictEncoder K) :
  adds_entry_size tl ->
  type_length_ e = tl /\ counts_bytes e ->
  call DType c e = Ok e' ->
  type_length_ e' = tl /\ counts_bytes e'.
Proof.
  intros Hlaw Hinv.
  assert (Hput : forall v a b, (type_length_ a = tl /\ counts_bytes a) ->
            Put DType v a = Ok b -> type_length_ b = tl /\ counts_bytes b).
  { intros v a b [Ha1 Ha2] Hab. split.
    - now rewrite (Put_type_length v a b Hab).
    - eapply Put_counts_bytes; eauto. now rewrite Ha1. }
  destruct c as [v|src n|src n bits off]; cbn.
  - now apply Hput.
  - apply (for_range_invariant
             (fun a => type_length_ a = tl /\ counts_bytes a)); [|exact Hinv].
    intros j a b Ha. destruct (at_index src j); [|discriminate].
    now apply Hput.
  - apply (for_range_invariant
             (fun a => type_length_ a = tl /\ counts_bytes a)); [|exact Hinv].
    intros j a b Ha. destruct (at_index bits (off + j)) as [[|]|];
      [|now intros [= <-]|discriminate].
    destruct (at_index src j); [|discriminate]. now apply Hput.
Qed.

(** After any sequence of calls on a new encoder the counter is the 32-bit
    reading of the number of bytes [WriteDict] writes. *)
Lemma calls_counts_bytes (tl : Z) (cs : list Call) (e : DictEncoder K) :
  adds_entry_size tl ->
  calls DType cs (DictEncoder_new tl) = Ok e ->
  counts_bytes e.
Proof.
  intros Hlaw.
  assert (G : forall a, type_length_ a = tl /\ counts_bytes a ->
                        calls DType cs a = Ok e -> counts_bytes e).
  { induction cs as [|c cs IH]; intros a Ha; cbn.
    - intros [= <-]. apply Ha.
    - destruct (call DType c a) as [b| | |] eqn:Eb; cbn; try discriminate.
      apply IH. eapply call_counts_bytes; eauto. }
  apply G. split; reflexivity.
Qed.

Lemma Put_memo_grows (v : T) (e e' : DictEncoder K) :
  Put DType v e = Ok e' ->
  (memo_table_ e' = memo_table_ e /\ dict_encoded_size e' = dict_encoded_size e)
  \/ (num_entries e' = num_entries e + 1
      /\ memo_table_ e' <> memo_table_ e).
Proof.
  intros HPut.
  destruct (Put_spec v e e' HPut) as (key & _ & _ & [Hfound|Hnew]).
  - left. destruct Hfound as (i & _ & ? & ? & _). now split.
  - right. destruct Hnew as (_ & Hmemo & _). unfold num_entries, memo_size.
    rewrite Hmemo, length_app. cbn. split; [lia|].
    intros Heq. rewrite Heq in Hmemo.
    apply (f_equal length) in Hmemo. rewrite length_app in Hmemo.
    cbn in Hmemo. lia.
Qed.

(** A value put twice in succession gets the same index both times, and
    the second [Put] leaves the dictionary and the counter as they are. *)
Lemma Put_twice (v : T) (e e1 : DictEncoder K) :
  Put DType v e = Ok e1 ->
  exists i e2,
    Put DType v e1 = Ok e2
    /\ buffered_indices_ e1 = buffered_indices_ e ++ [i]
    /\ buffered_indices_ e2 = buffered_indices_ e1 ++ [i]
    /\ memo_table_ e2 = memo_table_ e1
    /\ dict_encoded_size e2 = dict_encoded_size e1.
Proof.
  intros HPut.
  destruct (Put_spec v e e1 HPut) as (key & Hkey & Htl & Hcase).
  assert (exists i, index_of key (memo_keys (memo_table_ e1)) = Some i
                    /\ buffered_indices_ e1 = buffered_indices_ e ++ [i])
    as (i & Hi & Hb).
  { destruct Hcase as [(i & Hi & Hmemo & _ & Hb)|(Hnew & Hmemo & _ & Hb)].
    - exists i. now rewrite Hmemo.
    - exists (num_entries e). split; [|exact Hb]. rewrite Hmemo.
      unfold num_entries, memo_size. clear - Hnew.
      induction (memo_keys (memo_table_ e)) as [|k keys IH]; cbn.
      + now rewrite decide_True.
      + apply not_elem_of_cons in Hnew as [Hne Hnew].
        rewrite decide_False by congruence. rewrite (IH Hnew). cbn.
        f_equal. lia. }
  exists i. unfold Put. rewrite Htl, Hkey. cbn [mbind result_bind].
  unfold GetOrInsert. rewrite Hi. eexists. split; [reflexivity|].
  cbn. now repeat split.
Qed.

(** A property of the memo keys that every call keeps. *)
Lemma calls_keys_Forall (P : K -> Prop) (tl : Z) (cs : list Call)
    (e : DictEncoder K) :
  (forall v k, memo_key DType tl v = Ok k -> P k) ->
  calls DType cs (DictEncoder_new tl) = Ok e ->
  type_length_ e = tl /\ Forall P (memo_keys (memo_table_ e)).
Proof.
  intros HP.
  pose (I := fun a : DictEncoder K =>
               type_length_ a = tl /\ Forall P (memo_keys (memo_table_ a))).
  assert (Hput : forall v a b, I a -> Put DType v a = Ok b -> I b).
  { intros v a b [Ha1 Ha2] Hab.
    destruct (Put_spec v a b Hab) as (key & Hkey & Htl & [Hfound|Hnew]).
    - destruct Hfound as (i & _ & Hmemo & _). split; [congruence|].
      now rewrite Hmemo.
    - destruct Hnew as (_ & Hmemo & _). split; [congruence|].
      rewrite Hmemo. apply Forall_app. split; [exact Ha2|].
      constructor; [|constructor]. apply (HP v). now rewrite <- Ha1. }
  assert (Hcall : forall c a b, I a -> call DType c a = Ok b -> I b).
  { intros [v|src n|src n bits off] a b Ha; cbn.
    - now apply Hput.
    - apply (for_range_invariant I); [|exact Ha].
      intros j x y Hx. destruct (at_index src j); [|discriminate].
      now apply Hput.
    - apply (for_range_invariant I); [|exact Ha].
      intros j x y Hx. destruct (at_index bits (off + j)) as [[|]|];
        [|now intros [= <-]|discriminate].
      destruct (at_index src j); [|discriminate]. now apply Hput. }
  assert (G : forall a, I a -> calls DType cs a = Ok e -> I e).
  { induction cs as [|c cs IH]; intros a Ha; cbn.
    - now intros [= <-].
    - destruct (call DType c a) as [b| | |] eqn:Eb; cbn; try discriminate.
      apply IH. eapply Hcall; eauto. }
  apply G. split; [reflexivity|constructor].
Qed.

End Counter.

(** The total of [f] over the entries of a dictionary. *)
Definition total {K : Type} (f : K -> Z) (keys : list K) : Z :=
  foldr (fun k acc => f k + acc) 0 keys.

Lemma length_concat_total {K : Type} (w : K -> list uint8_t) (f : K -> Z)
    (keys : list K) :
  Forall (fun k => Z.of_nat (length (w k)) = f k) keys ->
  Z.of_nat (length (concat (map w keys))) = total f keys.
Proof.
  induction 1 as [|k keys Hk _ IH]; cbn; [reflexivity|].
  rewrite length_app, Nat2Z.inj_add, IH, Hk. reflexivity.
Qed.

Lemma total_const {K : Type} (c : Z) (keys : list K) :
  total (fun _ => c) keys = c * Z.of_nat (length keys).
Proof.
  unfold total. induction keys as [|k keys IH]; cbn [foldr length]; [lia|].
  rewrite IH. lia.
Qed.

Lemma length_le_bytes (n : nat) (z : Z) : length (le_bytes n z) = n.
Proof. revert z. induction n as [|n IH]; intros z; cbn; [|rewrite IH]; done. Qed.

Lemma adds_entry_size_Primitive {T : Type} (sizeof_T : Z)
    (bytes_of : T -> list uint8_t) (tl : Z) :
  (forall v, Z.of_nat (length (bytes_of v)) = sizeof_T) ->
  adds_entry_size (Primitive sizeof_T bytes_of) tl.
Proof.
  intros Hsize v k [= <-]. cbn. rewrite Hsize. apply to_int32_idem.
Qed.

Lemma adds_entry_size_ByteArrayType (tl : Z) : adds_entry_size ByteArrayType tl.
Proof.
  intros v k Hk.
  cbn [write_entry ByteArrayType memo_key on_not_found_size] in *.
  apply bytes_at_length in Hk as [Hn Hk].
  rewrite length_app, length_le_bytes, Nat2Z.inj_add, Hk, to_int32_idem.
  rewrite to_int32_add_r. f_equal. lia.
Qed.

Lemma adds_entry_size_FLBAType (tl : Z) : adds_entry_size FLBAType tl.
Proof.
  intros v k Hk. cbn in *. apply bytes_at_length in Hk as [Hn Hk].
  rewrite length_take. f_equal.
  rewrite Nat2Z.inj_min, Z2Nat.id, Hk by lia. lia.
Qed.

(** The accounting of one of the three encoders, with [entry_bytes] the
    number of bytes of an entry: after the calls [cs] on a new encoder,
    [WriteDict] writes the total of [entry_bytes] over the entries, the
    counter is that number read as a 32-bit [int] and is that number when
    it does not exceed [INT32_MAX], a further [Put] either leaves both the
    dictionary and the counter as they are or adds an entry, and it does
    the former on a value whose key is among the entries. *)
Definition accounts_for_WriteDict {T K : Type} `{EqDecision K}
    (DType : Specialization T K) (entry_bytes : K -> Z) (type_length : Z)
    : Prop :=
  forall cs e,
    calls DType cs (DictEncoder_new type_length) = Ok e ->
    let bytes := Z.of_nat (length (WriteDict DType e)) in
    bytes = total entry_bytes (memo_keys (memo_table_ e))
    /\ dict_encoded_size e = to_int32 bytes
    /\ (bytes <= INT32_MAX -> dict_encoded_size e = bytes)
    /\ (forall v e', Put DType v e = Ok e' ->
         (memo_table_ e' = memo_table_ e
          /\ dict_encoded_size e' = dict_encoded_size e)
         \/ (num_entries e' = num_entries e + 1
             /\ memo_table_ e' <> memo_table_ e))
    /\ (forall v e' key, Put DType v e = Ok e' ->
         memo_key DType (type_length_ e) v = Ok key ->
         key ∈ memo_keys (memo_table_ e) ->
         memo_table_ e' = memo_table_ e
         /\ dict_encoded_size e' = dict_encoded_size e).

Lemma accounts_for_WriteDict_intro {T K : Type} `{EqDecision K}
    (DType : Specialization T K) (entry_bytes : K -> Z) (tl : Z) :
  adds_entry_size DType tl ->
  (forall v k, memo_key DType tl v = Ok k ->
     Z.of_nat (length (write_entry DType tl k)) = entry_bytes k) ->
  accounts_for_WriteDict DType entry_bytes tl.
Proof.
  intros Hlaw Hbytes cs e Hcalls bytes.
  pose proof (calls_counts_bytes DType tl cs e Hlaw Hcalls) as Hcount.
  destruct (calls_keys_Forall DType
              (fun k => Z.of_nat (length (write_entry DType tl k)) = entry_bytes k)
              tl cs e Hbytes Hcalls) as [Htl Hkeys].
  unfold counts_bytes in Hcount. fold bytes in Hcount.
  split; [|split; [|split; [|split]]].
  - unfold bytes, WriteDict. rewrite Htl. now apply length_concat_total.
  - exact Hcount.
  - intros Hle. rewrite Hcount. apply to_int32_id.
    unfold INT32_MAX in Hle. unfold bytes in *. lia.
  - intros v e'. apply Put_memo_grows.
  - intros v e' key HPut Hkey Hin.
    destruct (Put_spec DType v e e' HPut) as (key' & Hkey' & _ & [Hfound|Hnew]).
    + destruct Hfound as (i & _ & ? & ? & _). now split.
    + destruct Hnew as (Hnot & _). congruence.
Qed.

(** After any sequence of [Put], [Put] of many values and [PutSpaced]
    calls on a new encoder: for a primitive type [WriteDict]
    writes [sizeof(T)] bytes per entry, for byte arrays four bytes plus the
    length of the entry, for fixed-length byte arrays [type_length] bytes
    per entry; in each case [dict_encoded_size] is that number of bytes
    read as a 32-bit [int], hence equal to it as long as it does not exceed
    [INT32_MAX]; and a [Put] changes the counter only when it adds an entry
    to the dictionary. *)
Theorem dict_encoded_size_accounts_for_WriteDict :
  (forall (T : Type) `(EqDecision T) (sizeof_T : Z)
          (bytes_of : T -> list uint8_t) (type_length : Z),
     (forall v, Z.of_nat (length (bytes_of v)) = sizeof_T) ->
     accounts_for_WriteDict (Primitive sizeof_T bytes_of)
       (fun _ => sizeof_T) type_length)
  /\ (forall type_length,
       accounts_for_WriteDict ByteArrayType
         (fun k => 4 + Z.of_nat (length k)) type_length)
  /\ (forall type_length,
       accounts_for_WriteDict FLBAType (fun _ => type_length) type_length).
Proof.
  split; [|split].
  - intros T ? sizeof_T bytes_of tl Hsize.
    apply accounts_for_WriteDict_intro.
    + now apply adds_entry_size_Primitive.
    + intros v k [= <-]. apply Hsize.
  - intros tl. apply accounts_for_WriteDict_intro.
    + apply adds_entry_size_ByteArrayType.
    + intros v k _. cbn [write_entry ByteArrayType].
      rewrite length_app, length_le_bytes. lia.
  - intros tl. apply accounts_for_WriteDict_intro.
    + apply adds_entry_size_FLBAType.
    + intros v k Hk. cbn in *. apply bytes_at_length in Hk as [Hn Hk].
      rewrite length_take, Nat2Z.inj_min, Z2Nat.id, Hk by lia. lia.
Qed.

(** The bytes of an ASCII string, for the examples. *)
Definition bytes_of_string (s : string) : list uint8_t :=
  map (fun a => Z.of_N (Ascii.N_of_ascii a)) (list_ascii_of_string s).

Definition byte_array (s : string) : ByteArray :=
  mkByteArray (Z.of_nat (String.length s)) (Some (bytes_of_string s)).

(** The column ["test"; "test2"; "test"] of boundary scenario 7. *)
Definition test_column : list ByteArray :=
  [byte_array "test"; byte_array "test2"; byte_array "test"].

(** The theorem at [test_column], put in one call: the dictionary has the
    two entries ["test"] and ["test2"], the indices are [0; 1; 0] and the
    counter is 4 + 4 + 4 + 5 = 17, the number of bytes of [WriteDict]. *)
Lemma dict_encoded_size_accounts_for_WriteDict_witness :
  exists e,
    calls ByteArrayType [CallPutMany test_column 3] (DictEncoder_new (-1)) = Ok e
    /\ buffered_indices_ e = [0; 1; 0]
    /\ Z.of_nat (length (WriteDict ByteArrayType e)) = 17
    /\ dict_encoded_size e = 17.
Proof.
  eexists. split; [vm_compute; reflexivity|].
  split; [reflexivity|]. split; [reflexivity|].
  refine (proj1 (proj2 (proj2
    (proj1 (proj2 dict_encoded_size_accounts_for_WriteDict) (-1)
       [CallPutMany test_column 3] _ _))) _).
  - vm_compute. reflexivity.
  - vm_compute. discriminate.
Defined.

(** A single [Put] of a byte array of [n] bytes into a new encoder. *)
Lemma Put_one_ByteArray (n : Z) :
  0 <= n < 2 ^ 31 ->
  exists e,
    Put ByteArrayType (mkByteArray n (Some (replicate (Z.to_nat n) 0)))
        (DictEncoder_new (-1)) = Ok e
    /\ dict_encoded_size e = to_int32 (n + 4)
    /\ Z.of_nat (length (WriteDict ByteArrayType e)) = n + 4.
Proof.
  intros Hn. unfold Put. cbn [memo_key ByteArrayType len ptr].
  rewrite (to_int32_id n) by lia.
  unfold bytes_at. cbn [default from_option id].
  rewrite length_replicate, Z2Nat.id by lia.
  destruct (Z.ltb_spec n 0); [lia|]. rewrite Z.ltb_irrefl.
  rewrite take_replicate, Nat.min_id. cbn.
  eexists. split; [reflexivity|]. cbn. split.
  - rewrite Z.add_0_l. apply to_int32_idem.
  - rewrite app_nil_r, length_replicate. lia.
Qed.

(** C8. A [Put] of one byte array of 2147483644 bytes into a new encoder
    leaves [dict_encoded_size] at -2147483648, while [WriteDict] writes
    2147483648 bytes: the counter is not the number of bytes of the
    dictionary, for which the caller of [WriteDict] is told to allocate
    the buffer. *)
Lemma dict_encoded_size_wraps :
  exists e,
    calls ByteArrayType
      [CallPut (mkByteArray 2147483644
                  (Some (replicate (Z.to_nat 2147483644) 0)))]
      (DictEncoder_new (-1)) = Ok e
    /\ dict_encoded_size e = -2147483648
    /\ Z.of_nat (length (WriteDict ByteArrayType e)) = 2147483648
    /\ dict_encoded_size e <> Z.of_nat (length (WriteDict ByteArrayType e)).
Proof.
  destruct (Put_one_ByteArray 2147483644 ltac:(lia)) as (e & HPut & Hsize & Hlen).
  exists e. unfold calls, call. rewrite HPut.
  change (2147483644 + 4) with 2147483648 in *.
  assert (to_int32 2147483648 = -2147483648) as Hw by (vm_compute; reflexivity).
  rewrite Hw in Hsize.
  split; [reflexivity|]. split; [exact Hsize|]. split; [exact Hlen|].
  rewrite Hsize, Hlen. lia.
Qed.

End DictEncoderProofs.

(** ** The delta-bit-packed decoder *)

Module DeltaBitPackProofs.
Import DeltaBitPack.

(** [SetData] does not assign [delta_bit_widths_]. *)
Lemma SetData_keeps_delta_bit_widths (num_values : Z) (data : list uint8_t)
    (d : DeltaBitPackDecoder) :
  delta_bit_widths_ (SetData num_values data d) = delta_bit_widths_ d.
Proof. reflexivity. Qed.

(** Any number of [SetData] calls leaves a null [delta_bit_widths_]
    null. *)
Lemma SetData_calls_keep_null (pages : list (Z * list uint8_t))
    (d : DeltaBitPackDecoder) :
  delta_bit_widths_ d = None ->
  delta_bit_widths_ (foldl (fun d page => SetData page.1 page.2 d) d pages)
  = None.
Proof.
  revert d. induction pages as [|page pages IH]; intros d Hd; [exact Hd|].
  cbn [foldl]. apply IH. now rewrite SetData_keeps_delta_bit_widths.
Qed.

(** With [delta_bit_widths_] null, [Decode] dereferences the null pointer
    before its loop, whatever count is asked for. *)
Lemma Decode_null_pointer (max_values : Z) (d : DeltaBitPackDecoder) :
  delta_bit_widths_ d = None -> Decode max_values d = Fault.
Proof. intros Hd. unfold Decode, GetInternal. now rewrite Hd. Qed.

(** C5. A decoder never emits a value. The constructor leaves the
    pointer [delta_bit_widths_] null, [SetData] does not assign it, and
    [InitBlock], the only code that does, is called from inside the loop of
    [GetInternal], after line 439 has taken [delta_bit_widths_->data()]:
    for a 32-bit and for a 64-bit stream alike, after the constructor and
    any sequence of [SetData] calls, [Decode] faults on the null pointer,
    for every page and every count. *)
Theorem Decode_after_SetData_faults (type_num : PhysicalType)
    (uninit d : DeltaBitPackDecoder) (pages : list (Z * list uint8_t))
    (max_values : Z) :
  DeltaBitPackDecoder_new type_num uninit = Ok d ->
  delta_bit_widths_ d = None
  /\ Decode max_values
       (foldl (fun d page => SetData page.1 page.2 d) d pages)
     = Fault.
Proof.
  intros Hnew.
  assert (Hd : delta_bit_widths_ d = None).
  { unfold DeltaBitPackDecoder_new in Hnew.
    destruct type_num; try discriminate; now injection Hnew as <-. }
  split; [exact Hd|].
  now apply Decode_null_pointer, SetData_calls_keep_null.
Qed.

(** A page of two 64-bit values, 0 and 4294967295: block size 8, one
    mini-block, two values, first value 0, minimum delta 0, bit width 32,
    then the delta 4294967295 and seven zero deltas. *)
Definition page_int64 : list uint8_t :=
  [8; 1; 2; 0; 0; 32; 255; 255; 255; 255] ++ replicate 28 0.

(** A page of nine 32-bit values in one block of two mini-blocks of four
    deltas each, with bit widths 2 and 3. *)
Definition page_int32 : list uint8_t := [8; 2; 9; 14; 3; 2; 3; 192; 219; 6].

(** Memory that holds zeros where the constructor initializes nothing. *)
Definition zeroed : DeltaBitPackDecoder :=
  {| num_values_ := 0; decoder_ := mkBitReader [] 0;
     values_current_block_ := 0; num_mini_blocks_ := 0;
     values_per_mini_block_ := 0; values_current_mini_block_ := 0;
     min_delta_ := 0; mini_block_idx_ := 0; delta_bit_widths_ := None;
     delta_bit_width_ := 0; last_value_ := 0 |}.

(** [Decode_after_SetData_faults] at the two pages: [SetData] and then
    [Decode] of the first value. *)
Lemma Decode_after_SetData_faults_witness :
  (d ← DeltaBitPackDecoder_new INT64 zeroed;
   Decode 1 (SetData 2 page_int64 d)) = Fault
  /\ (d ← DeltaBitPackDecoder_new INT32 zeroed;
      Decode 1 (SetData 9 page_int32 d)) = Fault.
Proof.
  split.
  - exact (proj2 (Decode_after_SetData_faults INT64 zeroed _
                    [(2, page_int64)] 1 eq_refl)).
  - exact (proj2 (Decode_after_SetData_faults INT32 zeroed _
                    [(9, page_int32)] 1 eq_refl)).
Defined.

End DeltaBitPackProofs.

(** ** The table and the loops of [Append] *)

Module HashTableProofs.
Import HashKernel.

(** The types to which the switches of [GetUniqueKernel] and
    [GetDictionaryEncodeKernel] give the primitive kernel. *)
Definition primitive_type (ty : TypeId) : bool :=
  match ty with
  | UINT8 | INT8 | UINT16 | INT16 | UINT32 | INT32 | UINT64 | INT64
  | FLOAT | DOUBLE => true
  | _ => false
  end.

(** The nulls of a column, in order: one null index per null position and
    nothing for a value. *)
Fixpoint null_slots {T : Type} (content : list (option T)) : list (option Z) :=
  match content with
  | [] => []
  | None :: rest => None :: null_slots rest
  | Some _ :: rest => null_slots rest
  end.

Lemma null_slots_le {T : Type} (content : list (option T)) :
  (length (null_slots content) <= length content)%nat.
Proof.
  induction content as [|[v|] rest IH]; cbn [null_slots length]; lia.
Qed.

(** A column with a value has fewer nulls than positions. *)
Lemma null_slots_lt {T : Type} (content : list (option T)) (v : T) :
  Some v ∈ content -> (length (null_slots content) < length content)%nat.
Proof.
  induction content as [|o rest IH]; intros Hin.
  - now apply elem_of_nil in Hin.
  - apply elem_of_cons in Hin as [<-|Hin]; cbn [null_slots length].
    + pose proof (null_slots_le rest). lia.
    + specialize (IH Hin). destruct o; cbn [length]; lia.
Qed.

Section Kernel.
Context {T : Type}.
Variable HashValue : T -> Z.

(** The table is allocated and every masked hash value is a position of
    it. *)
Definition addressable (t : HashTable) : Prop :=
  exists hash_slots_,
    hash_table_ t = Some hash_slots_
    /\ forall h, is_Some (at_index hash_slots_ (Z.land h (mod_bitmask_ t))).

Lemma addressable_Init : addressable (HashTable_Init kInitialHashTableSize).
Proof.
  exists (NewHashTable kInitialHashTableSize). split; [reflexivity|].
  intros h. cbn [mod_bitmask_ HashTable_Init].
  change (kInitialHashTableSize - 1) with (Z.ones 10).
  rewrite Z.land_ones by lia.
  pose proof (Z.mod_pos_bound h (2 ^ 10) ltac:(lia)) as Hh.
  unfold at_index. destruct (Z.ltb_spec (h mod 2 ^ 10) 0); [lia|].
  apply lookup_lt_is_Some. unfold NewHashTable. rewrite length_replicate.
  change kInitialHashTableSize with (2 ^ 10). lia.
Qed.

(** The macro changes nothing: the kernel it returns is the kernel it was
    given, with the same table, the same dictionary and the same state of
    the action. *)
Lemma HASH_INNER_LOOP_unchanged {A : Type} (v : T) (k k' : Kernel A) :
  HASH_INNER_LOOP HashValue v k = Ok k' -> k' = k.
Proof.
  unfold HASH_INNER_LOOP.
  destruct (hash_table_ (table k)) as [slots|]; [|discriminate].
  destruct (at_index slots _); [|discriminate]. now intros [= <-].
Qed.

Lemma HASH_INNER_LOOP_addressable {A : Type} (v : T) (k : Kernel A) :
  addressable (table k) -> HASH_INNER_LOOP HashValue v k = Ok k.
Proof.
  intros (slots & Hslots & Hin). unfold HASH_INNER_LOOP. rewrite Hslots.
  now destruct (Hin (HashValue v)) as [slot ->].
Qed.

(** What one iteration of either loop of [Append] does with the content
    [o] of its position. *)
Definition observe {A : Type} `{Action A} (o : option T) (k : Kernel A)
    : result (Kernel A) :=
  match o with
  | None => Ok (mkKernel (table k) (dict_ k) (ObserveNull (action k)))
  | Some v => HASH_INNER_LOOP HashValue v k
  end.

(** The state of the action after a column: [ObserveNull] at each null,
    and no call at a value. *)
Definition observe_nulls {A : Type} `{Action A} (content : list (option T))
    (a : A) : A :=
  foldl (fun a o => match o with None => ObserveNull a | Some _ => a end)
        a content.

(** A loop that observes the positions of [content] in order leaves the
    table and the dictionary as they are. *)
Lemma observe_loop {A : Type} `{Action A} (content : list (option T))
    (body : Z -> Kernel A -> result (Kernel A)) (i0 : Z) (k : Kernel A) :
  addressable (table k) ->
  (forall n o, content !! n = Some o ->
     forall k, body (i0 + Z.of_nat n) k = observe o k) ->
  for_range (length content) i0 body k
  = Ok (mkKernel (table k) (dict_ k) (observe_nulls content (action k))).
Proof.
  revert i0 k. induction content as [|o rest IH]; intros i0 k Hk Hbody.
  - now destruct k.
  - cbn [length for_range].
    pose proof (Hbody 0%nat o eq_refl k) as Hhead.
    cbn [Z.of_nat] in Hhead. rewrite Z.add_0_r in Hhead. rewrite Hhead.
    assert (Hrest : forall n o', rest !! n = Some o' ->
              forall k, body (i0 + 1 + Z.of_nat n) k = observe o' k).
    { intros n o' Hn k0. rewrite <- (Hbody (S n) o' Hn k0). f_equal. lia. }
    destruct o as [v|]; cbn [observe].
    + rewrite (HASH_INNER_LOOP_addressable v k Hk). cbn [mbind result_bind].
      now rewrite (IH (i0 + 1) k Hk Hrest).
    + cbn [mbind result_bind].
      now rewrite (IH (i0 + 1) (mkKernel (table k) (dict_ k)
                                  (ObserveNull (action k))) Hk Hrest).
Qed.

(** The array [arr] holds the column [content]: its length, the validity
    bitmap it must carry when it declares nulls, and at each position what
    the loops of [Append] read there. *)
Definition holds (arr : ArrayData) (content : list (option T)) : Prop :=
  arr_length arr = Z.of_nat (length content)
  /\ (null_count arr <> 0 -> is_Some (buffers0 arr))
  /\ forall n o, content !! n = Some o ->
       exists value, GetValues arr (Z.of_nat n) = Ok value
         /\ if null_count arr =? 0 then o = Some value
            else exists is_null, IsNotSet arr (Z.of_nat n) = Ok is_null
                 /\ o = if (is_null : bool) then None else Some value.

Lemma Append_step_observe {A : Type} `{Action A} (arr : ArrayData)
    (content : list (option T)) (n : nat) (o : option T) (k : Kernel A) :
  holds arr content -> content !! n = Some o ->
  (if negb (null_count arr =? 0)
   then Append_nullable_step HashValue arr (0 + Z.of_nat n) k
   else Append_step HashValue arr (0 + Z.of_nat n) k)
  = observe o k.
Proof.
  intros (_ & _ & Hread) Hn. destruct (Hread n o Hn) as (value & Hval & Ho).
  rewrite Z.add_0_l. unfold Append_nullable_step, Append_step.
  rewrite Hval. cbn [mbind result_bind].
  destruct (null_count arr =? 0); cbn [negb].
  - now subst o.
  - destruct Ho as (is_null & Hbit & ->). rewrite Hbit. cbn [mbind result_bind].
    now destruct is_null.
Qed.

(** The two loops of [Append] over a column, on a kernel whose table is
    allocated. *)
Lemma Append_loops {A : Type} `{Action A} (arr : ArrayData)
    (content : list (option T)) (k : Kernel A) :
  addressable (table k) -> holds arr content ->
  (if negb (null_count arr =? 0) then
     match buffers0 arr with
     | None => Fault
     | Some _ =>
         for_range (Z.to_nat (arr_length arr)) 0
           (Append_nullable_step HashValue arr) k
     end
   else for_range (Z.to_nat (arr_length arr)) 0 (Append_step HashValue arr) k)
  = Ok (mkKernel (table k) (dict_ k) (observe_nulls content (action k))).
Proof.
  intros Hk Hholds. pose proof Hholds as (Hlen & Hbitmap & _).
  rewrite Hlen, Nat2Z.id.
  rewrite <- (observe_loop content
                (fun i k => if negb (null_count arr =? 0)
                            then Append_nullable_step HashValue arr i k
                            else Append_step HashValue arr i k) 0 k Hk).
  - destruct (Z.eqb_spec (null_count arr) 0) as [E|E]; cbn [negb];
      [reflexivity|].
    now destruct (Hbitmap E) as [bits ->].
  - intros n o Hn k0. now apply (Append_step_observe arr content).
Qed.

(** [Append] to a kernel that is initialized: the table and the dictionary
    stay as they are, whatever the column holds. *)
Lemma Append_initialized {A : Type} `{Action A} (arr : ArrayData)
    (content : list (option T)) (k : Kernel A) :
  (forall n a, Reserve n a = Ok a) ->
  initialized_ (table k) = true -> addressable (table k) ->
  holds arr content ->
  Append HashValue arr k
  = Ok (mkKernel (table k) (dict_ k) (observe_nulls content (action k))).
Proof.
  intros HReserve Hinit Hk Hholds. unfold Append. rewrite Hinit.
  cbn [mbind result_bind]. rewrite HReserve. cbn [mbind result_bind].
  exact (Append_loops arr content (mkKernel (table k) (dict_ k) (action k))
           Hk Hholds).
Qed.

(** The kernel after [Init]: 1024 empty slots and an empty dictionary. *)
Definition initial {A : Type} (a : A) : @Kernel T A :=
  mkKernel (HashTable_Init kInitialHashTableSize)
           (mkHashDictionary (Some []) 0 kInitialHashTableSize) a.

Lemma Kernel_Init_new {A : Type} (a : A) :
  Kernel_Init (Kernel_new a) = Ok (initial a).
Proof.
  unfold Kernel_Init, Kernel_new, HashDictionary_Init, HashDictionary_Resize.
  cbn [dict_ buffer mbind result_bind action size capacity].
  now rewrite take_nil.
Qed.

(** [Append] to a new kernel initializes it and then leaves the table and
    the dictionary as [Init] made them, whatever the column holds. *)
Lemma Append_new {A : Type} `{Action A} (arr : ArrayData)
    (content : list (option T)) (a : A) :
  (forall n a, Reserve n a = Ok a) ->
  holds arr content ->
  Append HashValue arr (Kernel_new a) = Ok (initial (observe_nulls content a)).
Proof.
  intros HReserve Hholds. unfold Append.
  cbn [Kernel_new table initialized_ HashTable_new].
  change (mkKernel HashTable_new HashDictionary_new a) with (Kernel_new a).
  rewrite Kernel_Init_new. cbn [mbind result_bind initial action].
  rewrite HReserve. cbn [mbind result_bind].
  exact (Append_loops arr content (initial a) addressable_Init Hholds).
Qed.

Lemma observe_nulls_Unique (content : list (option T)) (u : unit) :
  observe_nulls (H:=UniqueImpl) content u = u.
Proof.
  unfold observe_nulls. induction content as [|[v|] rest IH];
    cbn [foldl ObserveNull UniqueImpl]; auto.
Qed.

Lemma observe_nulls_DictEncode (content : list (option T)) (b : Int32Builder) :
  observe_nulls (H:=DictEncodeImpl) content b = b ++ null_slots content.
Proof.
  unfold observe_nulls. revert b.
  induction content as [|[v|] rest IH]; intros b;
    cbn [foldl null_slots ObserveNull DictEncodeImpl].
  - now rewrite app_nil_r.
  - apply IH.
  - rewrite IH, <- app_assoc. reflexivity.
Qed.

Lemma GetKernel_primitive {A : Type} (name : string) (a : A) (ty : TypeId) :
  primitive_type ty = true ->
  GetKernel name a ty = Ok (PrimitiveHasher (T:=T) (Kernel_new a)).
Proof. destruct ty; cbn; intros; try discriminate; reflexivity. Qed.

(** The two functions on one array of a primitive type. *)
Lemma hash_kernels_array (arr : ArrayData) (content : list (option T)) :
  primitive_type (type arr) = true ->
  holds arr content ->
  Unique HashValue (ARRAY arr) = Ok []
  /\ DictionaryEncode HashValue (ARRAY arr)
     = Ok (DICT_ARRAY (mkDictionaryArray (null_slots content) [])).
Proof.
  intros Hty Hholds. split.
  - unfold Unique, GetUniqueKernel. cbn [Datum_type].
    rewrite (GetKernel_primitive _ _ _ Hty). cbn [mbind result_bind].
    unfold InvokeHash, Hasher_Call, Hasher_Append. cbn [fst snd].
    rewrite (Append_new (H:=UniqueImpl) arr content tt (fun _ _ => eq_refl)
               Hholds).
    reflexivity.
  - unfold DictionaryEncode, GetDictionaryEncodeKernel. cbn [Datum_type].
    rewrite (GetKernel_primitive (A:=Int32Builder) _ [] _ Hty).
    cbn [mbind result_bind].
    unfold InvokeHash, Hasher_Call, Hasher_Append. cbn [fst snd].
    rewrite (Append_new (H:=DictEncodeImpl) arr content []
               (fun _ _ => eq_refl) Hholds).
    rewrite observe_nulls_DictEncode. reflexivity.
Qed.

(** X5. The null-skip loop of [Append] does not depend on the value bytes of
    null slots: two arrays that both carry a validity bitmap or both lack
    it, with the same validity bits and the same values at the non-null
    positions, drive the kernel alike. *)
Lemma Append_ignores_null_slots {A : Type} `{Action A} (arr1 arr2 : @ArrayData T)
    (k : Kernel A) :
  arr_length arr1 = arr_length arr2 ->
  null_count arr1 <> 0 -> null_count arr2 <> 0 ->
  (buffers0 arr1 = None <-> buffers0 arr2 = None) ->
  (forall i, 0 <= i < arr_length arr1 ->
     exists v1 v2 is_null,
       GetValues arr1 i = Ok v1 /\ GetValues arr2 i = Ok v2
       /\ IsNotSet arr1 i = Ok is_null /\ IsNotSet arr2 i = Ok is_null
       /\ (is_null = false -> v1 = v2)) ->
  Append HashValue arr1 k = Append HashValue arr2 k.
Proof.
  intros Hlen Hn1 Hn2 Hbitmap Hsame. unfold Append. rewrite <- Hlen.
  destruct (if initialized_ (table k) then Ok k else Kernel_Init k)
    as [k0| | |]; cbn [mbind result_bind]; try reflexivity.
  destruct (Reserve (arr_length arr1) _) as [a| | |];
    cbn [mbind result_bind]; try reflexivity.
  apply Z.eqb_neq in Hn1, Hn2. rewrite Hn1, Hn2. cbn [negb].
  destruct (buffers0 arr1) as [bits1|] eqn:E1,
           (buffers0 arr2) as [bits2|] eqn:E2;
    try reflexivity;
    try (destruct Hbitmap as [H1 H2];
         first [specialize (H1 eq_refl)|specialize (H2 eq_refl)];
         discriminate).
  apply for_range_ext. intros i s Hi.
  destruct (Hsame i) as (v1 & v2 & b & Hv1 & Hv2 & Hb1 & Hb2 & Hv); [lia|].
  unfold Append_nullable_step. rewrite Hv1, Hv2, Hb1, Hb2.
  cbn [mbind result_bind]. destruct b; [reflexivity|]. now rewrite Hv.
Qed.

(** [Call] on a chunk of a chunked array, for [Unique] and for
    [DictionaryEncode], on a kernel that is initialized. *)
Lemma Hasher_Call_Unique (arr : ArrayData) (content : list (option T))
    (k : Kernel unit) (outs : list (list (option Z))) :
  initialized_ (table k) = true -> addressable (table k) ->
  holds arr content ->
  Hasher_Call HashValue arr (PrimitiveHasher k, outs)
  = Ok (PrimitiveHasher k, outs).
Proof.
  intros Hinit Hk Hholds. unfold Hasher_Call, Hasher_Append. cbn [fst snd].
  rewrite (Append_initialized (H:=UniqueImpl) arr content k
             (fun _ _ => eq_refl) Hinit Hk Hholds).
  rewrite observe_nulls_Unique.
  cbn [mbind result_bind Hasher_Flush Flush UniqueImpl action table dict_].
  rewrite app_nil_r. now destruct k as [t d []].
Qed.

Lemma Hasher_Call_DictEncode (arr : ArrayData) (content : list (option T))
    (t : HashTable) (d : HashDictionary) (outs : list (list (option Z))) :
  initialized_ t = true -> addressable t ->
  holds arr content ->
  Hasher_Call (H:=DictEncodeImpl) HashValue arr
    (PrimitiveHasher (mkKernel (A:=Int32Builder) t d []), outs)
  = Ok (PrimitiveHasher (mkKernel (A:=Int32Builder) t d []),
        outs ++ [null_slots content]).
Proof.
  intros Hinit Hk Hholds. unfold Hasher_Call, Hasher_Append. cbn [fst snd].
  assert (E : Append (H:=DictEncodeImpl) HashValue arr
                (mkKernel (A:=Int32Builder) t d [])
              = Ok (mkKernel t d (null_slots content))).
  { rewrite <- (app_nil_l (null_slots content)),
      <- (observe_nulls_DictEncode content []).
    exact (Append_initialized (H:=DictEncodeImpl) arr content
             (mkKernel t d []) (fun _ _ => eq_refl) Hinit Hk Hholds). }
  rewrite E. reflexivity.
Qed.

Lemma Call_chunks_Unique (arrs : list ArrayData) (cs : list (list (option T)))
    (k : Kernel unit) (outs : list (list (option Z))) :
  initialized_ (table k) = true -> addressable (table k) ->
  Forall2 holds arrs cs ->
  Call_chunks HashValue arrs (PrimitiveHasher k, outs)
  = Ok (PrimitiveHasher k, outs).
Proof.
  intros Hinit Hk Hall. induction Hall as [|arr c arrs cs Hc _ IH];
    [reflexivity|].
  cbn [Call_chunks]. rewrite (Hasher_Call_Unique arr c k outs Hinit Hk Hc).
  exact IH.
Qed.

Lemma Call_chunks_DictEncode (arrs : list ArrayData)
    (cs : list (list (option T))) (t : HashTable) (d : HashDictionary)
    (outs : list (list (option Z))) :
  initialized_ t = true -> addressable t ->
  Forall2 holds arrs cs ->
  Call_chunks (H:=DictEncodeImpl) HashValue arrs
    (PrimitiveHasher (mkKernel (A:=Int32Builder) t d []), outs)
  = Ok (PrimitiveHasher (mkKernel (A:=Int32Builder) t d []),
        outs ++ map null_slots cs).
Proof.
  intros Hinit Hk Hall. revert outs.
  induction Hall as [|arr c arrs cs Hc _ IH]; intros outs.
  - cbn [Call_chunks map]. now rewrite app_nil_r.
  - cbn [Call_chunks map].
    rewrite (Hasher_Call_DictEncode arr c t d outs Hinit Hk Hc).
    cbn [mbind result_bind]. rewrite IH, <- app_assoc. reflexivity.
Qed.

End Kernel.

End HashTableProofs.

(** ** What the hash kernels return *)

Module HashKernelProofs.
Import HashKernel HashTableProofs.

Section Functions.
Context {T : Type}.
Variable HashValue : T -> Z.

(** C1. For every column of a primitive type, whatever values it holds and
    whatever the hash function is, [Unique] returns an empty dictionary, and
    [DictionaryEncode] returns that empty dictionary with an index array
    that holds one null per null position and nothing for a value. A column
    with a value therefore gets a dictionary without that value, and an
    index array shorter than the column. *)
Theorem hash_kernels_return_no_values (arr : ArrayData)
    (content : list (option T)) :
  primitive_type (type arr) = true ->
  holds arr content ->
  Unique HashValue (ARRAY arr) = Ok []
  /\ DictionaryEncode HashValue (ARRAY arr)
     = Ok (DICT_ARRAY (mkDictionaryArray (null_slots content) []))
  /\ forall v, Some v ∈ content ->
       (length (null_slots content) < length content)%nat.
Proof.
  intros Hty Hholds.
  destruct (hash_kernels_array HashValue arr content Hty Hholds) as [HU HD].
  split; [exact HU|]. split; [exact HD|].
  intros v Hv. now apply (null_slots_lt content v).
Qed.


(** C7. The macro reports no index and inserts nothing. On every kernel
    state on which it returns it returns that state; on a kernel fresh from
    [Init] it does return, with the dictionary still empty; and
    [DictionaryEncode] of a column that holds the value [v] twice returns
    no index at all. *)
Theorem HASH_INNER_LOOP_reports_no_index (v : T) :
  (forall (A : Type) (k k' : Kernel A),
     HASH_INNER_LOOP HashValue v k = Ok k' -> k' = k)
  /\ (forall b : Int32Builder,
        exists k, Kernel_Init (Kernel_new b) = Ok k
                  /\ HASH_INNER_LOOP HashValue v k = Ok k
                  /\ action k = b /\ size (dict_ k) = 0)
  /\ DictionaryEncode HashValue (ARRAY (mkArrayData INT64 2 0 0 None [v; v]))
     = Ok (DICT_ARRAY (mkDictionaryArray [] [])).
Proof.
  split; [|split].
  - intros A k k'. apply HASH_INNER_LOOP_unchanged.
  - intros b. exists (initial b). split; [apply Kernel_Init_new|].
    split; [|now split].
    apply HASH_INNER_LOOP_addressable, addressable_Init.
  - assert (Hholds : holds (mkArrayData INT64 2 0 0 None [v; v])
                       [Some v; Some v]).
    { split; [reflexivity|]. split; [now intros []|].
      intros n o Hn.
      do 2 (destruct n as [|n]; [injection Hn as <-; eexists; split;
              reflexivity|]).
      discriminate. }
    exact (proj2 (hash_kernels_array HashValue
                    (mkArrayData INT64 2 0 0 None [v; v]) [Some v; Some v]
                    eq_refl Hholds)).
Qed.

End Functions.

(** *** The theorems at the columns of the tests *)

(** The hash function of the examples: the value itself. *)
Definition hash_self (value : Z) : Z := value.



(** The array of [TestHashKernelPrimitive.EncodeBasic]: the column
    [2; null; 2; 1], whose unique values the test expects to be [2; 1]. *)
Definition encode_basic : ArrayData :=
  mkArrayData INT32 4 1 0 (Some [true; false; true; true]) [2; 1; 2; 1].

Lemma EncodeBasic_holds :
  holds encode_basic [Some 2; None; Some 2; Some 1].
Proof.
  split; [reflexivity|]. split; [now eexists|].
  intros n o Hn.
  do 4 (destruct n as [|n]; [injection Hn as <-; eexists; split;
          [reflexivity|eexists; split; reflexivity]|]).
  discriminate.
Qed.

(** [hash_kernels_return_no_values] at the column of [EncodeBasic]: the
    dictionary is empty, not [2; 1], and the index array is the one null,
    not [0; null; 0; 1]. *)
Lemma hash_kernels_return_no_values_witness :
  Unique hash_self (ARRAY encode_basic) = Ok []
  /\ DictionaryEncode hash_self (ARRAY encode_basic)
     = Ok (DICT_ARRAY (mkDictionaryArray [None] []))
  /\ forall v, Some v ∈ [Some 2; None; Some 2; Some 1] -> (1 < 4)%nat.
Proof.
  exact (hash_kernels_return_no_values hash_self encode_basic
           [Some 2; None; Some 2; Some 1] eq_refl EncodeBasic_holds).
Defined.


End HashKernelProofs.

(** ** Chunked arrays, missing buffers and unsupported types *)

Module HashKernelLaws.
Import HashKernel HashTableProofs.

(** The types with a case in the switches of [GetUniqueKernel] and
    [GetDictionaryEncodeKernel] that is not commented out. *)
Definition has_kernel (ty : TypeId) : bool :=
  match ty with
  | NA | UINT8 | INT8 | UINT16 | INT16 | UINT32 | INT32 | UINT64 | INT64
  | FLOAT | DOUBLE => true
  | BOOL | DATE32 | DATE64 | TIME32 | TIME64 | TIMESTAMP
  | BINARY | STRING | FIXED_SIZE_BINARY => false
  end.

(** A returned [Status] that is not OK, or a thrown exception. *)
Definition is_fail {A : Type} (m : result A) : bool :=
  match m with Fail _ _ => true | _ => false end.

Lemma bind_no_fail {A B : Type} (m : result A) (f : A -> result B) :
  is_fail m = false -> (forall a, is_fail (f a) = false) ->
  is_fail (m ≫= f) = false.
Proof. destruct m; cbn; auto. Qed.

Lemma for_range_no_fail {St : Type} (body : Z -> St -> result St) (n : nat)
    (i : Z) (s : St) :
  (forall j a, is_fail (body j a) = false) ->
  is_fail (for_range n i body s) = false.
Proof.
  intros Hbody. revert i s. induction n as [|n IH]; intros i s; [reflexivity|].
  cbn [for_range]. apply bind_no_fail; auto.
Qed.

Section Dispatch.
Context {T : Type}.
Variable HashValue : T -> Z.

(** X3. A chunked array of a primitive type. Without chunks no [Append]
    initializes the kernel, and [GetDictionary] reads the null buffer
    pointer of the dictionary: both functions fault. With chunks the kernel
    is initialized by the first one and shared by all: [Unique] returns the
    empty dictionary, and [DictionaryEncode] returns one index array per
    chunk, in order, each holding the nulls of its chunk. *)
Theorem hash_kernels_chunked (ty : TypeId) (arrs : list ArrayData)
    (cs : list (list (option T))) :
  primitive_type ty = true ->
  Forall2 holds arrs cs ->
  (arrs = [] ->
   Unique HashValue (CHUNKED_ARRAY ty arrs) = Fault
   /\ DictionaryEncode HashValue (CHUNKED_ARRAY ty arrs) = Fault)
  /\ (arrs <> [] ->
      Unique HashValue (CHUNKED_ARRAY ty arrs) = Ok []
      /\ DictionaryEncode HashValue (CHUNKED_ARRAY ty arrs)
         = Ok (DICT_CHUNKED_ARRAY
                 (map (fun c => mkDictionaryArray (null_slots c) []) cs))).
Proof.
  intros Hty Hall. split.
  - intros ->. unfold Unique, DictionaryEncode, GetUniqueKernel,
      GetDictionaryEncodeKernel. cbn [Datum_type].
    rewrite (GetKernel_primitive _ tt _ Hty).
    rewrite (GetKernel_primitive (A:=Int32Builder) _ [] _ Hty).
    split; reflexivity.
  - intros Hne. destruct Hall as [|arr c arrs cs Hc Hall]; [done|]. split.
    + unfold Unique, GetUniqueKernel. cbn [Datum_type].
      rewrite (GetKernel_primitive _ _ _ Hty). cbn [mbind result_bind].
      unfold InvokeHash. cbn [Call_chunks].
      unfold Hasher_Call at 1, Hasher_Append. cbn [fst snd].
      rewrite (Append_new HashValue (H:=UniqueImpl) arr c tt (fun _ _ => eq_refl) Hc).
      rewrite observe_nulls_Unique.
      cbn [mbind result_bind Hasher_Flush Flush UniqueImpl action table dict_
           initial app].
      change (mkKernel (HashTable_Init kInitialHashTableSize)
                (mkHashDictionary (Some []) 0 kInitialHashTableSize) tt)
        with (initial (T:=T) tt).
      rewrite (Call_chunks_Unique HashValue arrs cs (initial (T:=T) tt) [] eq_refl
                 addressable_Init Hall).
      reflexivity.
    + unfold DictionaryEncode, GetDictionaryEncodeKernel. cbn [Datum_type].
      rewrite (GetKernel_primitive (A:=Int32Builder) _ [] _ Hty).
      cbn [mbind result_bind].
      unfold InvokeHash. cbn [Call_chunks].
      unfold Hasher_Call at 1, Hasher_Append. cbn [fst snd].
      rewrite (Append_new HashValue (H:=DictEncodeImpl) arr c [] (fun _ _ => eq_refl) Hc).
      rewrite observe_nulls_DictEncode.
      cbn [mbind result_bind Hasher_Flush Flush DictEncodeImpl action table
           dict_ initial app].
      pose proof (Call_chunks_DictEncode HashValue arrs cs
                    (HashTable_Init kInitialHashTableSize)
                    (mkHashDictionary (Some []) 0 kInitialHashTableSize)
                    [null_slots c] eq_refl addressable_Init Hall) as E.
      match type of E with
      | ?lhs = _ =>
          match goal with
          | |- context [@Call_chunks ?a ?b ?c ?d ?e ?f] =>
              change (@Call_chunks a b c d e f) with lhs
          end
      end.
      rewrite E.
      cbn [mbind result_bind Hasher_GetDictionary GetDictionary dict_ buffer
           size Z.to_nat take app map].
      now rewrite map_map.
Qed.

(** X16. An array of a primitive type that declares nulls
    ([null_count != 0]) and carries no validity bitmap makes both functions
    fault, for an empty array too: [Append] takes [arr.buffers[0]->data()]
    before its loop. *)
Theorem hash_kernels_missing_bitmap (arr : ArrayData) :
  primitive_type (type arr) = true ->
  null_count arr <> 0 -> buffers0 arr = None ->
  Unique HashValue (ARRAY arr) = Fault
  /\ DictionaryEncode HashValue (ARRAY arr) = Fault.
Proof.
  intros Hty Hnc Hbitmap.
  assert (HAppend : forall (A : Type) `(Action A) (a : A),
            (forall n a, Reserve n a = Ok a) ->
            Append HashValue arr (Kernel_new a) = Fault).
  { intros A HA a HReserve. unfold Append.
    cbn [Kernel_new table initialized_ HashTable_new].
    change (mkKernel HashTable_new HashDictionary_new a) with (Kernel_new a).
    rewrite Kernel_Init_new. cbn [mbind result_bind initial action].
    rewrite HReserve. cbn [mbind result_bind].
    apply Z.eqb_neq in Hnc. now rewrite Hnc, Hbitmap. }
  split.
  - unfold Unique, GetUniqueKernel. cbn [Datum_type].
    rewrite (GetKernel_primitive _ _ _ Hty). cbn [mbind result_bind].
    unfold InvokeHash, Hasher_Call, Hasher_Append. cbn [fst snd].
    now rewrite (HAppend unit UniqueImpl tt (fun _ _ => eq_refl)).
  - unfold DictionaryEncode, GetDictionaryEncodeKernel. cbn [Datum_type].
    rewrite (GetKernel_primitive (A:=Int32Builder) _ [] _ Hty).
    cbn [mbind result_bind].
    unfold InvokeHash, Hasher_Call, Hasher_Append. cbn [fst snd].
    now rewrite (HAppend Int32Builder DictEncodeImpl [] (fun _ _ => eq_refl)).
Qed.

Lemma HASH_INNER_LOOP_no_fail {A : Type} (v : T) (k : Kernel A) :
  is_fail (HASH_INNER_LOOP HashValue v k) = false.
Proof.
  unfold HASH_INNER_LOOP.
  destruct (hash_table_ (table k)) as [slots|]; [|reflexivity].
  now destruct (at_index slots _).
Qed.

Lemma Kernel_Init_no_fail {A : Type} (k : @Kernel T A) :
  is_fail (Kernel_Init k) = false.
Proof. reflexivity. Qed.

Lemma Append_no_fail {A : Type} `{Action A} (arr : ArrayData) (k : Kernel A) :
  (forall n a, is_fail (Reserve n a) = false) ->
  is_fail (Append HashValue arr k) = false.
Proof.
  intros HReserve. unfold Append.
  apply bind_no_fail.
  { destruct (initialized_ (table k)); [reflexivity|apply Kernel_Init_no_fail]. }
  intros k0. apply bind_no_fail; [apply HReserve|]. intros a.
  destruct (negb (null_count arr =? 0)).
  - destruct (buffers0 arr) as [bits|] eqn:E; [|reflexivity].
    apply for_range_no_fail; intros j s.
    unfold Append_nullable_step, GetValues, IsNotSet. rewrite E.
    destruct (at_index (buffers1 arr) (offset arr + j)); [|reflexivity].
    cbn [mbind result_bind].
    destruct (at_index bits (offset arr + j)) as [[|]|]; cbn; try reflexivity.
    apply HASH_INNER_LOOP_no_fail.
  - apply for_range_no_fail; intros j s. unfold Append_step, GetValues.
    destruct (at_index (buffers1 arr) (offset arr + j)); [|reflexivity].
    apply HASH_INNER_LOOP_no_fail.
Qed.

Lemma Hasher_Call_no_fail {A : Type} `{Action A} (arr : ArrayData)
    (s : Hasher A * list (list (option Z))) :
  (forall n a, is_fail (Reserve n a) = false) ->
  is_fail (Hasher_Call HashValue arr s) = false.
Proof.
  intros HReserve. unfold Hasher_Call.
  apply bind_no_fail.
  - unfold Hasher_Append. destruct s.1 as [k|k].
    + apply bind_no_fail; [|reflexivity]. unfold NullKernel_Append.
      apply bind_no_fail; [apply HReserve|]. intros a.
      now apply for_range_no_fail.
    + apply bind_no_fail; [|reflexivity]. now apply Append_no_fail.
  - intros h. now destruct (Hasher_Flush h).
Qed.

Lemma InvokeHash_no_fail {A : Type} `{Action A} (func : Hasher A)
    (value : Datum) :
  (forall n a, is_fail (Reserve n a) = false) ->
  is_fail (InvokeHash HashValue func value) = false.
Proof.
  intros HReserve. unfold InvokeHash.
  apply bind_no_fail.
  - destruct value as [arr|ty chunks]; [now apply Hasher_Call_no_fail|].
    generalize (func, @nil (list (option Z))).
    induction chunks as [|c chunks IH]; intros s; [reflexivity|].
    cbn [Call_chunks].
    apply bind_no_fail; [now apply Hasher_Call_no_fail|exact IH].
  - intros [h outs]. apply bind_no_fail; [|reflexivity].
    destruct h as [k|k]; [reflexivity|]. unfold Hasher_GetDictionary, GetDictionary.
    now destruct (buffer (dict_ k)).
Qed.

(** X4. [Unique] and [DictionaryEncode] return [NotImplemented] exactly
    for the types without a case in the switches (boolean, dates, times,
    timestamps, binary, string and fixed-size binary), whatever the datum
    holds; for the other types no status is returned and no exception is
    thrown. *)
Theorem hash_kernels_not_implemented (value : @Datum T) :
  let ty := Datum_type value in
  ((exists msg, Unique HashValue value = Fail NotImplemented msg)
   <-> has_kernel ty = false)
  /\ (forall code msg, Unique HashValue value = Fail code msg ->
        code = NotImplemented)
  /\ ((exists msg, DictionaryEncode HashValue value
                   = Fail NotImplemented msg)
      <-> has_kernel ty = false)
  /\ (forall code msg, DictionaryEncode HashValue value = Fail code msg ->
        code = NotImplemented).
Proof.
  intros ty.
  assert (HU : has_kernel ty = true ->
               is_fail (Unique HashValue value) = false).
  { intros Hty. unfold Unique, GetUniqueKernel. fold ty.
    apply bind_no_fail; [now destruct ty|]. intros func.
    apply bind_no_fail; [|now intros [[h outs] d]].
    now apply (InvokeHash_no_fail (H:=UniqueImpl)). }
  assert (HD : has_kernel ty = true ->
               is_fail (DictionaryEncode HashValue value) = false).
  { intros Hty. unfold DictionaryEncode, GetDictionaryEncodeKernel. fold ty.
    apply bind_no_fail; [now destruct ty|]. intros func.
    apply bind_no_fail; [now apply (InvokeHash_no_fail (H:=DictEncodeImpl))|].
    intros [[h outs] d]. destruct outs; [reflexivity|]. now destruct value. }
  assert (HU' : has_kernel ty = false ->
                Unique HashValue value = Fail NotImplemented "unique").
  { unfold Unique, GetUniqueKernel. fold ty.
    destruct ty; try discriminate; reflexivity. }
  assert (HD' : has_kernel ty = false ->
                DictionaryEncode HashValue value
                = Fail NotImplemented "dictionary-encode").
  { unfold DictionaryEncode, GetDictionaryEncodeKernel. fold ty.
    destruct ty; try discriminate; reflexivity. }
  destruct (has_kernel ty) eqn:Hty.
  - specialize (HU eq_refl). specialize (HD eq_refl).
    split; [split; [intros [msg E]; now rewrite E in HU|discriminate]|].
    split; [intros code msg E; now rewrite E in HU|].
    split; [split; [intros [msg E]; now rewrite E in HD|discriminate]|].
    intros code msg E; now rewrite E in HD.
  - rewrite (HU' eq_refl), (HD' eq_refl).
    split; [split; [reflexivity|eauto]|].
    split; [now intros code msg [= <- _]|].
    split; [split; [reflexivity|eauto]|].
    now intros code msg [= <- _].
Qed.

End Dispatch.

(** *** The laws at the column of [EncodeBasic] *)

Import HashKernelProofs.

(** The column of [EncodeBasic] in two chunks, the second without
    nulls. *)
Definition chunk1 : ArrayData :=
  mkArrayData INT32 2 1 0 (Some [true; false]) [2; 1].

Definition chunk2 : ArrayData := mkArrayData INT32 2 0 0 None [2; 1].

Lemma chunks_hold :
  Forall2 holds [chunk1; chunk2] [[Some 2; None]; [Some 2; Some 1]].
Proof.
  constructor; [|constructor; [|constructor]].
  - split; [reflexivity|]. split; [now eexists|]. intros n o Hn.
    do 2 (destruct n as [|n]; [injection Hn as <-; eexists; split;
            [reflexivity|eexists; split; reflexivity]|]).
    discriminate.
  - split; [reflexivity|]. split; [intros Hnc; now contradiction Hnc|].
    intros n o Hn.
    do 2 (destruct n as [|n]; [injection Hn as <-; eexists; split;
            reflexivity|]).
    discriminate.
Qed.

(** [hash_kernels_chunked] at the chunks [2; null] and [2; 1]. *)
Lemma hash_kernels_chunked_witness :
  Unique hash_self (CHUNKED_ARRAY INT32 [chunk1; chunk2]) = Ok []
  /\ DictionaryEncode hash_self (CHUNKED_ARRAY INT32 [chunk1; chunk2])
     = Ok (DICT_CHUNKED_ARRAY
             [mkDictionaryArray [None] []; mkDictionaryArray [] []]).
Proof.
  apply (proj2 (hash_kernels_chunked hash_self INT32 [chunk1; chunk2]
                  [[Some 2; None]; [Some 2; Some 1]] eq_refl chunks_hold)).
  discriminate.
Defined.

(** The array of [EncodeBasic] with another value in its null slot. *)
Definition encode_basic' : ArrayData :=
  mkArrayData INT32 4 1 0 (Some [true; false; true; true]) [2; 99; 2; 1].

(** [Append_ignores_null_slots] at the two arrays. *)
Lemma Append_ignores_null_slots_witness :
  Append hash_self encode_basic (Kernel_new ([] : Int32Builder))
  = Append hash_self encode_basic' (Kernel_new []).
Proof.
  apply (Append_ignores_null_slots hash_self encode_basic encode_basic'
           (Kernel_new ([] : Int32Builder)) eq_refl);
    [discriminate|discriminate|split; intros E; discriminate E|].
  intros i Hi. cbn in Hi.
  assert (Hcase : i = 0 \/ i = 1 \/ i = 2 \/ i = 3) by lia.
  destruct Hcase as [-> | [-> | [-> | ->]]].
  - exists 2, 2, false. repeat split; reflexivity.
  - exists 1, 99, true. repeat split; try reflexivity. discriminate.
  - exists 2, 2, false. repeat split; reflexivity.
  - exists 1, 1, false. repeat split; reflexivity.
Defined.

(** [hash_kernels_missing_bitmap] at an empty array that declares one
    null and has no validity bitmap. *)
Lemma hash_kernels_missing_bitmap_witness :
  Unique hash_self (ARRAY (mkArrayData INT32 0 1 0 None [])) = Fault
  /\ DictionaryEncode hash_self (ARRAY (mkArrayData INT32 0 1 0 None []))
     = Fault.
Proof.
  apply (hash_kernels_missing_bitmap hash_self
           (mkArrayData INT32 0 1 0 None []) eq_refl);
    [discriminate|reflexivity].
Defined.

End HashKernelLaws.

(** ** The buffered indices of the dictionary encoder *)

Module DictEncoderLaws.
Import DictEncoder MemoTableProofs DictEncoderProofs.

(** The loop [for (i = i0; i < i0 + n; ++i)] of a body that consumes the
    value [val i], if any, at position [i]: a relation between the values
    consumed and the state that every iteration extends holds after the
    loop for the values of all positions. *)
Lemma for_range_trace {St V : Type} (R : list V -> St -> Prop)
    (val : Z -> option V) (body : Z -> St -> result St) (n : nat) :
  (forall j a b vs, R vs a -> body j a = Ok b ->
     R (vs ++ option_list (val j)) b) ->
  forall (i : Z) (s s' : St) (vs : list V),
  R vs s -> for_range n i body s = Ok s' ->
  R (vs ++ omap val (seqZ i (Z.of_nat n))) s'.
Proof.
  intros Hbody. induction n as [|n IH]; intros i s s' vs Hs.
  - cbn. intros [= <-]. now rewrite app_nil_r.
  - cbn [for_range]. destruct (body i s) as [a| | |] eqn:Ea;
      cbn [mbind result_bind]; try discriminate.
    intros Hloop. rewrite seqZ_cons by lia. cbn [omap list_omap].
    replace (Z.pred (Z.of_nat (S n))) with (Z.of_nat n) by lia.
    replace (Z.succ i) with (i + 1) by lia.
    pose proof (IH (i + 1) a s' _ (Hbody i s a vs Hs Ea) Hloop) as HR.
    rewrite <- app_assoc in HR.
    destruct (val i); cbn [option_list app] in HR; exact HR.
Qed.

(** The elements [src[0 .. n)] are the first [n] elements of [src]. *)
Lemma omap_at_index_seqZ {A : Type} (src : list A) (n : Z) :
  omap (at_index src) (seqZ 0 n) = take (Z.to_nat n) src.
Proof.
  destruct (Z.le_gt_cases n 0) as [Hn|Hn].
  { rewrite seqZ_nil by lia. now replace (Z.to_nat n) with 0%nat by lia. }
  rewrite <- (Z2Nat.id n) at 1 by lia.
  induction (Z.to_nat n) as [|m IH]; [reflexivity|].
  rewrite Nat2Z.inj_succ, <- Z.add_1_r, seqZ_app by lia.
  rewrite omap_app, IH, Z.add_0_l. cbn [seqZ]. 
  change (seqZ (Z.of_nat m) 1) with [Z.of_nat m]. cbn [omap list_omap].
  rewrite at_index_lookup by lia. rewrite Nat2Z.id.
  destruct (src !! m) as [x|] eqn:Ex.
  - now rewrite (take_S_r _ _ x).
  - apply lookup_ge_None in Ex. rewrite !take_ge by lia. now rewrite app_nil_r.
Qed.

Section Decode.
Context {T K : Type} `{EqDecision K}.
Variable DType : Specialization T K.

(** The values a call feeds to [Put], in order: [src[0 .. num_values)], and
    for [PutSpaced] those of them whose validity bit is set. *)
Definition put_values (c : Call (T:=T)) : list T :=
  match c with
  | CallPut v => [v]
  | CallPutMany src n => take (Z.to_nat n) src
  | CallPutSpaced src n valid_bits off =>
      omap (fun i => match at_index valid_bits (off + i) with
                     | Some true => at_index src i
                     | _ => None
                     end) (seqZ 0 n)
  end.

(** The buffered indices read back against the dictionary give the keys
    of the values [vs]. *)
Definition decodes (tl : Z) (e : DictEncoder K) (vs : list T) : Prop :=
  Forall2 (fun v i => exists k, memo_key DType tl v = Ok k
                      /\ at_index (memo_keys (memo_table_ e)) i = Some k)
          vs (buffered_indices_ e).

Definition consistent (tl : Z) (vs : list T) (e : DictEncoder K) : Prop :=
  type_length_ e = tl
  /\ NoDup (memo_keys (memo_table_ e))
  /\ decodes tl e vs.

Lemma at_index_app_l {A : Type} (l more : list A) (i : Z) (x : A) :
  at_index l i = Some x -> at_index (l ++ more) i = Some x.
Proof.
  rewrite !at_index_Some. intros [Hi Hx]. split; [exact Hi|].
  now apply lookup_app_l_Some.
Qed.

Lemma Put_consistent (tl : Z) (v : T) (vs : list T) (a b : DictEncoder K) :
  consistent tl vs a -> Put DType v a = Ok b -> consistent tl (vs ++ [v]) b.
Proof.
  intros (Htl & Hnd & Hdec) HPut.
  destruct (Put_spec DType v a b HPut) as (key & Hkey & Htl' & [Hfound|Hnew]).
  - destruct Hfound as (i & Hi & Hmemo & _ & Hb).
    split; [congruence|]. rewrite Hmemo. split; [exact Hnd|].
    unfold decodes. rewrite Hmemo, Hb. apply Forall2_app; [exact Hdec|].
    constructor; [|constructor]. exists key. split; [congruence|].
    apply index_of_Some in Hi as [Hi H0]. now apply at_index_Some.
  - destruct Hnew as (Hnew & Hmemo & _ & Hb).
    split; [congruence|]. rewrite Hmemo. split.
    + apply NoDup_app. split; [exact Hnd|]. split; [|apply NoDup_singleton].
      intros x Hx Hx'. apply list_elem_of_singleton in Hx'. now subst.
    + unfold decodes. rewrite Hmemo, Hb. apply Forall2_app.
      * eapply Forall2_impl; [exact Hdec|]. intros x i (k & Hk & Hi).
        exists k. split; [exact Hk|]. now apply at_index_app_l.
      * constructor; [|constructor]. exists key. split; [congruence|].
        apply at_index_Some. unfold num_entries, memo_size.
        split; [lia|]. rewrite Nat2Z.id.
        now rewrite lookup_app_r, Nat.sub_diag.
Qed.

Lemma call_consistent (tl : Z) (c : Call) (vs : list T) (a b : DictEncoder K) :
  consistent tl vs a -> call DType c a = Ok b ->
  consistent tl (vs ++ put_values c) b.
Proof.
  destruct c as [v|src n|src n bits off]; cbn [call put_values].
  - apply Put_consistent.
  - unfold Put_many. intros Ha Hloop.
    destruct (Z.le_gt_cases 0 n) as [Hn|Hn].
    + eapply (for_range_trace (consistent tl) (at_index src)) in Hloop;
        [|clear Hloop|exact Ha].
      * now rewrite Z2Nat.id, omap_at_index_seqZ in Hloop by exact Hn.
      * intros j x y ws Hx. destruct (at_index src j); [|discriminate].
        now apply Put_consistent.
    + replace (Z.to_nat n) with 0%nat in * by lia.
      injection Hloop as <-. cbn. now rewrite app_nil_r.
  - unfold PutSpaced. intros Ha Hloop.
    destruct (Z.le_gt_cases 0 n) as [Hn|Hn].
    + eapply (for_range_trace (consistent tl)
                (fun i => match at_index bits (off + i) with
                          | Some true => at_index src i
                          | _ => None
                          end)) in Hloop; [|clear Hloop|exact Ha].
      * now rewrite Z2Nat.id in Hloop by exact Hn.
      * intros j x y ws Hx. cbn beta.
        destruct (at_index bits (off + j)) as [[|]|]; [| |discriminate].
        -- destruct (at_index src j); [|discriminate]. now apply Put_consistent.
        -- intros [= <-]. cbn. now rewrite app_nil_r.
    + replace (Z.to_nat n) with 0%nat in Hloop by lia.
      injection Hloop as <-. rewrite seqZ_nil by lia. cbn.
      now rewrite app_nil_r.
Qed.

Lemma calls_consistent (tl : Z) (cs : list Call) (vs : list T)
    (a e : DictEncoder K) :
  consistent tl vs a -> calls DType cs a = Ok e ->
  consistent tl (vs ++ (cs ≫= put_values)) e.
Proof.
  revert vs a. induction cs as [|c cs IH]; intros vs a Ha; cbn [calls].
  - intros [= <-]. cbn. now rewrite app_nil_r.
  - destruct (call DType c a) as [b| | |] eqn:Eb; cbn [mbind result_bind];
      try discriminate.
    intros Hcalls. cbn. rewrite app_assoc.
    apply (IH _ b); [|exact Hcalls]. now apply (call_consistent tl c vs a).
Qed.

Lemma new_consistent (tl : Z) : consistent tl [] (DictEncoder_new tl).
Proof. split; [reflexivity|]. split; constructor. Qed.

(** X9. After any sequence of [Put], [Put] of many and [PutSpaced] calls
    on a new encoder the dictionary holds no key twice, there is one
    buffered index per value put (for [PutSpaced]: per value whose validity
    bit is set), in order, and each index is the position in the dictionary
    of the key of its value. *)
Theorem buffered_indices_decode (tl : Z) (cs : list Call) (e : DictEncoder K) :
  calls DType cs (DictEncoder_new tl) = Ok e ->
  NoDup (memo_keys (memo_table_ e))
  /\ Forall2 (fun v i => exists k, memo_key DType tl v = Ok k
                /\ at_index (memo_keys (memo_table_ e)) i = Some k)
       (cs ≫= put_values) (buffered_indices_ e).
Proof.
  intros Hcalls.
  destruct (calls_consistent tl cs [] _ e (new_consistent tl) Hcalls)
    as (_ & Hnd & Hdec).
  split; [exact Hnd|exact Hdec].
Qed.

(** Indices that read back against the dictionary are below its size,
    and so below two to the power of [bit_width()]. *)
Lemma decodes_fit_bit_width (tl : Z) (e : DictEncoder K) (vs : list T) :
  decodes tl e vs ->
  Forall (fun i => 0 <= i < num_entries e /\ i < 2 ^ bit_width e)
         (buffered_indices_ e).
Proof.
  unfold decodes. intros Hdec.
  induction Hdec as [|v i ws idx (k & _ & Hi) _ IH]; constructor; [|exact IH].
  apply at_index_Some in Hi as [H0 Hi]. apply lookup_lt_Some in Hi.
  assert (Hlt : i < num_entries e) by (unfold num_entries, memo_size; lia).
  split; [lia|]. unfold bit_width.
  destruct (Z.eqb_spec (num_entries e) 0) as [E0|E0]; [lia|].
  destruct (Z.eqb_spec (num_entries e) 1) as [E1|E1]; [lia|].
  pose proof (Z.log2_up_spec (num_entries e) ltac:(lia)). lia.
Qed.

(** X10. After any sequence of [Put] calls on a new encoder every
    buffered index is below the number of dictionary entries and fits
    the bit width [bit_width()] reports, the width [WriteIndices] hands to
    the run encoder. *)
Theorem buffered_indices_fit_bit_width (tl : Z) (cs : list Call)
    (e : DictEncoder K) :
  calls DType cs (DictEncoder_new tl) = Ok e ->
  Forall (fun i => 0 <= i < num_entries e /\ i < 2 ^ bit_width e)
         (buffered_indices_ e).
Proof.
  intros Hcalls.
  destruct (calls_consistent tl cs [] _ e (new_consistent tl) Hcalls)
    as (_ & _ & Hdec).
  now apply (decodes_fit_bit_width tl e ([] ++ (cs ≫= put_values))).
Qed.

End Decode.

Section Pages.
Context {T K : Type} `{EqDecision K}.
Variable DType : Specialization T K.
Context {RleEncoder : Type}.
Variable RleEncoder_new : Z -> Z -> RleEncoder.
Variable RleEncoder_Put : Z -> RleEncoder -> bool * RleEncoder.
Variable RleEncoder_Flush : RleEncoder -> RleEncoder.
Variable RleEncoder_len : RleEncoder -> Z.
Variable RleEncoder_buffer : RleEncoder -> list uint8_t.

Local Abbreviation WriteIndices :=
  (WriteIndices RleEncoder_new RleEncoder_Put RleEncoder_Flush RleEncoder_len
     RleEncoder_buffer).

(** X11. A value put again gets the index it got before, and the
    dictionary and the counter stay as they are, both when it is put again
    at once and when [WriteIndices] has run in between, whether that call
    wrote the indices or failed. *)
Theorem Put_again_same_index (v : T) (e e1 : DictEncoder K) (buffer_len : Z) :
  Put DType v e = Ok e1 ->
  exists (i : Z) (e2 e3 : DictEncoder K),
    buffered_indices_ e1 = buffered_indices_ e ++ [i]
    /\ Put DType v e1 = Ok e2
    /\ buffered_indices_ e2 = buffered_indices_ e1 ++ [i]
    /\ memo_table_ e2 = memo_table_ e1
    /\ dict_encoded_size e2 = dict_encoded_size e1
    /\ Put DType v (WriteIndices buffer_len e1).2 = Ok e3
    /\ buffered_indices_ e3
       = buffered_indices_ (WriteIndices buffer_len e1).2 ++ [i]
    /\ memo_table_ e3 = memo_table_ e1
    /\ dict_encoded_size e3 = dict_encoded_size e1.
Proof.
  intros HPut.
  destruct (Put_twice DType v e e1 HPut) as (i & e2 & HPut2 & Hb1 & Hb2 & Hm2 & Hs2).
  set (w := (WriteIndices buffer_len e1).2).
  assert (Hw : memo_table_ w = memo_table_ e1
               /\ type_length_ w = type_length_ e1
               /\ dict_encoded_size_ w = dict_encoded_size_ e1).
  { unfold w, DictEncoder.WriteIndices.
    now destruct (put_indices _ _ _). }
  destruct Hw as (Hwm & Hwt & Hws).
  destruct (Put_spec DType v e1 e2 HPut2) as (key & Hkey & _ & Hcase).
  assert (Hi : index_of key (memo_keys (memo_table_ e1)) = Some i).
  { destruct Hcase as [(j & Hj & _ & _ & Hbj)|(Hnew & Hmemo & _)].
    - rewrite Hb2 in Hbj. apply app_inj_tail in Hbj as [_ ->]. exact Hj.
    - rewrite Hm2 in Hmemo. apply (f_equal length) in Hmemo.
      rewrite length_app in Hmemo. cbn in Hmemo. lia. }
  exists i, e2.
  eexists. split; [exact Hb1|]. split; [exact HPut2|]. split; [exact Hb2|].
  split; [exact Hm2|]. split; [exact Hs2|].
  unfold Put. rewrite Hwt, Hkey. cbn [mbind result_bind].
  unfold GetOrInsert. rewrite Hwm, Hi. split; [reflexivity|].
  cbn. split; [reflexivity|]. split; [reflexivity|exact Hws].
Qed.

End Pages.

(** *** The laws at the column of boundary scenario 7 *)

(** [buffered_indices_decode] at [test_column], put in one call. *)
Lemma buffered_indices_decode_witness :
  exists e,
    calls ByteArrayType [CallPutMany test_column 3] (DictEncoder_new (-1)) = Ok e
    /\ NoDup (memo_keys (memo_table_ e))
    /\ Forall2 (fun v i => exists k, memo_key ByteArrayType (-1) v = Ok k
                  /\ at_index (memo_keys (memo_table_ e)) i = Some k)
         test_column (buffered_indices_ e).
Proof.
  eexists. split; [vm_compute; reflexivity|].
  apply (buffered_indices_decode ByteArrayType (-1) [CallPutMany test_column 3]).
  vm_compute. reflexivity.
Defined.

(** [buffered_indices_fit_bit_width] at [test_column]: two entries, one
    bit. *)
Lemma buffered_indices_fit_bit_width_witness :
  exists e,
    calls ByteArrayType [CallPutMany test_column 3] (DictEncoder_new (-1)) = Ok e
    /\ bit_width e = 1
    /\ Forall (fun i => 0 <= i < num_entries e /\ i < 2 ^ bit_width e)
              (buffered_indices_ e).
Proof.
  eexists. split; [vm_compute; reflexivity|]. split; [reflexivity|].
  apply (buffered_indices_fit_bit_width ByteArrayType (-1)
           [CallPutMany test_column 3]).
  vm_compute. reflexivity.
Defined.

(** [Put_again_same_index] at the value ["test"] and a new encoder, with
    the stand-in run encoder and a buffer of 16 bytes. *)
Lemma Put_again_same_index_witness :
  exists (i : Z) (e1 e2 e3 : DictEncoder (list uint8_t)),
    Put ByteArrayType (byte_array "test") (DictEncoder_new (-1)) = Ok e1
    /\ buffered_indices_ e1 = [] ++ [i]
    /\ Put ByteArrayType (byte_array "test") e1 = Ok e2
    /\ buffered_indices_ e2 = buffered_indices_ e1 ++ [i]
    /\ memo_table_ e2 = memo_table_ e1
    /\ dict_encoded_size e2 = dict_encoded_size e1
    /\ Put ByteArrayType (byte_array "test")
         (WriteIndices RunEncoder_new RunEncoder_Put RunEncoder_Flush
            RunEncoder_len run_written 16 e1).2 = Ok e3
    /\ buffered_indices_ e3
       = buffered_indices_
           (WriteIndices RunEncoder_new RunEncoder_Put RunEncoder_Flush
              RunEncoder_len run_written 16 e1).2 ++ [i]
    /\ memo_table_ e3 = memo_table_ e1
    /\ dict_encoded_size e3 = dict_encoded_size e1.
Proof.
  destruct (Put ByteArrayType (byte_array "test") (DictEncoder_new (-1)))
    as [e1| | |] eqn:E1; try (vm_compute in E1; discriminate).
  destruct (Put_again_same_index ByteArrayType RunEncoder_new RunEncoder_Put
              RunEncoder_Flush RunEncoder_len run_written
              (byte_array "test") (DictEncoder_new (-1)) e1 16 E1)
    as (i & e2 & e3 & H).
  exists i, e1, e2, e3. split; [reflexivity|exact H].
Defined.

End DictEncoderLaws.

(** ** From the dictionary encoder to the dictionary decoder *)

Module DictionaryDecoderProofs.
Import DictEncoder DictEncoderProofs DictEncoderLaws.

Section RoundTrip.
Context {T : Type} `{EqDecision T}.
Variable sizeof_T : Z.
Variable bytes_of : T -> list DictEncoder.uint8_t.
Context {RleEncoder RleDecoder : Type}.
Variable RleEncoder_new : Z -> Z -> RleEncoder.
Variable RleEncoder_Put : Z -> RleEncoder -> bool * RleEncoder.
Variable RleEncoder_Flush : RleEncoder -> RleEncoder.
Variable RleEncoder_len : RleEncoder -> Z.
Variable RleEncoder_buffer : RleEncoder -> list DictEncoder.uint8_t.
Variable RleDecoder_new : list DictEncoder.uint8_t -> Z -> Z -> RleDecoder.
Variable GetBatchWithDict :
  list T -> Z -> RleDecoder -> Z * list T * RleDecoder.

Local Abbreviation DType := (Primitive sizeof_T bytes_of).
Local Abbreviation WriteIndices :=
  (WriteIndices RleEncoder_new RleEncoder_Put RleEncoder_Flush RleEncoder_len
     RleEncoder_buffer).

(** The round trip of the run codec: indices that fit the bit width [w],
    put into an encoder and flushed, are read back in one batch from the
    bytes written, each translated through the dictionary. *)
Definition rle_round_trip : Prop :=
  forall (w buffer_len : Z) (indices : list Z) (enc : RleEncoder)
         (dict vs : list T),
    0 <= w <= 32 ->
    Forall (fun i => 0 <= i < 2 ^ w) indices ->
    put_indices RleEncoder_Put indices (RleEncoder_new buffer_len w) = Some enc ->
    Forall2 (fun i v => at_index dict i = Some v) indices vs ->
    exists r,
      GetBatchWithDict dict (Z.of_nat (length indices))
        (RleDecoder_new (RleEncoder_buffer (RleEncoder_Flush enc))
           (RleEncoder_len (RleEncoder_Flush enc)) w)
      = (Z.of_nat (length indices), vs, r).

(** A new key comes with a new index. *)
Lemma calls_entries_le (tl : Z) (cs : list Call) (e : DictEncoder T) :
  calls DType cs (DictEncoder_new tl) = Ok e ->
  num_entries e <= Z.of_nat (length (buffered_indices_ e)).
Proof.
  pose (I := fun a : DictEncoder T =>
               num_entries a <= Z.of_nat (length (buffered_indices_ a))).
  assert (Hput : forall v a b, I a -> Put DType v a = Ok b -> I b).
  { intros v a b Ha Hab. unfold I in *.
    destruct (Put_spec DType v a b Hab) as (key & _ & _ & [Hfound|Hnew]).
    - destruct Hfound as (i & _ & Hmemo & _ & Hb).
      unfold num_entries in *. rewrite Hmemo, Hb, length_app. cbn. lia.
    - destruct Hnew as (_ & Hmemo & _ & Hb).
      unfold num_entries, memo_size in *. rewrite Hmemo, Hb, !length_app.
      cbn. lia. }
  assert (Hcall : forall c a b, I a -> call DType c a = Ok b -> I b).
  { intros [v|src n|src n bits off] a b Ha; cbn.
    - now apply Hput.
    - apply (for_range_invariant I); [|exact Ha].
      intros j x y Hx. destruct (at_index src j); [|discriminate].
      now apply Hput.
    - apply (for_range_invariant I); [|exact Ha].
      intros j x y Hx. destruct (at_index bits (off + j)) as [[|]|];
        [|now intros [= <-]|discriminate].
      destruct (at_index src j); [|discriminate]. now apply Hput. }
  assert (G : forall a, I a -> calls DType cs a = Ok e -> I e).
  { induction cs as [|c cs IH]; intros a Ha; cbn.
    - now intros [= <-].
    - destruct (call DType c a) as [b| | |] eqn:Eb; cbn; try discriminate.
      apply IH. eapply Hcall; eauto. }
  apply G. unfold I, num_entries, memo_size. cbn. lia.
Qed.

Lemma bit_width_le (e : DictEncoder T) :
  0 <= num_entries e < 2 ^ 31 -> 0 <= bit_width e <= 31.
Proof.
  intros Hn. unfold bit_width.
  destruct (Z.eqb_spec (num_entries e) 0); [lia|].
  destruct (Z.eqb_spec (num_entries e) 1); [lia|].
  split; [apply Z.log2_up_nonneg|].
  apply Z.log2_up_le_pow2; lia.
Qed.

(** X12. What a dictionary encoder of a primitive type writes, a
    dictionary decoder reads back: after any sequence of [Put] calls on a
    new encoder, a [WriteIndices] that succeeds leaves no index buffered,
    and a decoder given the dictionary in insertion order ([SetDict]) and
    the page [WriteIndices] wrote ([SetData]) decodes exactly the values
    put, in order, and has no value left. The run codec is taken to round
    trip, as section 8 requires of it. *)
Theorem DictEncoder_DictionaryDecoder_round_trip (tl buffer_len : Z)
    (cs : list Call) (e : DictEncoder T) (idx_decoder : RleDecoder) :
  rle_round_trip ->
  (forall r, 0 <= RleEncoder_len r) ->
  calls DType cs (DictEncoder_new tl) = Ok e ->
  Z.of_nat (length (buffered_indices_ e)) < 2 ^ 31 ->
  (WriteIndices buffer_len e).1.1 <> -1 ->
  let values := cs ≫= put_values in
  let num_values := Z.of_nat (length values) in
  let written := WriteIndices buffer_len e in
  buffered_indices_ written.2 = []
  /\ exists d',
       (d ← DictionaryDecoder.SetData RleDecoder_new num_values
              written.1.2 written.1.1
              (DictionaryDecoder.SetDict (memo_keys (memo_table_ e))
                 (DictionaryDecoder.DictionaryDecoder_new idx_decoder));
        DictionaryDecoder.Decode GetBatchWithDict num_values d)
       = Ok (d', values, num_values)
       /\ DictionaryDecoder.num_values_ d' = 0.
Proof.
  intros Hrle Hlen Hcalls Hint Hok values num_values written. unfold written.
  destruct (calls_consistent DType tl cs [] _ e (new_consistent DType tl) Hcalls)
    as (_ & _ & Hdec).
  pose proof (decodes_fit_bit_width DType tl e _ Hdec) as Hfit.
  cbn [app] in Hdec.
  pose proof (calls_entries_le tl cs e Hcalls) as Hle.
  assert (Hn : 0 <= num_entries e < 2 ^ 31).
  { unfold num_entries, memo_size in *. lia. }
  pose proof (bit_width_le e Hn) as Hbw.
  unfold DictEncoder.WriteIndices in *.
  destruct (put_indices RleEncoder_Put (buffered_indices_ e)
              (RleEncoder_new (buffer_len - 1) (bit_width e)))
    as [enc|] eqn:Eput; [|now cbn in Hok].
  cbn [fst snd]. split; [reflexivity|].
  assert (Hvs : Forall2 (fun i v => at_index (memo_keys (memo_table_ e)) i = Some v)
                  (buffered_indices_ e) values).
  { apply Forall2_flip. eapply Forall2_impl; [exact Hdec|].
    intros v i (k & Hk & Hi). cbn in Hk. now injection Hk as ->. }
  destruct (Hrle (bit_width e) (buffer_len - 1) (buffered_indices_ e) enc
              (memo_keys (memo_table_ e)) values) as [r Hr].
  { lia. }
  { eapply Forall_impl; [exact Hfit|]. intros i [? ?]. lia. }
  { exact Eput. }
  { exact Hvs. }
  assert (Hcount : length (buffered_indices_ e) = length values).
  { now apply Forall2_length in Hvs. }
  unfold DictionaryDecoder.SetData.
  pose proof (Hlen (RleEncoder_Flush enc)) as Hl.
  destruct (Z.eqb_spec (1 + RleEncoder_len (RleEncoder_Flush enc)) 0); [lia|].
  cbn [mbind result_bind]. unfold DictionaryDecoder.Decode.
  cbn [DictionaryDecoder.num_values_ DictionaryDecoder.dictionary_
       DictionaryDecoder.idx_decoder_ DictionaryDecoder.SetDict
       DictionaryDecoder.DictionaryDecoder_new].
  rewrite Z.min_id.
  replace (1 + RleEncoder_len (RleEncoder_Flush enc) - 1)
    with (RleEncoder_len (RleEncoder_Flush enc)) by lia.
  replace (wrap_unsigned 8 (bit_width e)) with (bit_width e)
    by (unfold wrap_unsigned; rewrite Z.mod_small; lia).
  unfold num_values. rewrite <- Hcount, Hr, Z.eqb_refl. cbn [negb].
  eexists. split; [reflexivity|]. cbn. lia.
Qed.

End RoundTrip.

(** *** The round trip with the stand-in run codec *)

Import DictionaryDecoder.

Lemma from_le_bytes_le_bytes (n : nat) (z : Z) :
  0 <= z < 256 ^ Z.of_nat n -> from_le_bytes (le_bytes n z) = z.
Proof.
  revert z. induction n as [|n IH]; intros z Hz.
  - cbn in *. lia.
  - cbn [le_bytes from_le_bytes]. rewrite IH.
    + pose proof (Z.div_mod z 256 ltac:(lia)). lia.
    + rewrite Nat2Z.inj_succ, Z.pow_succ_r in Hz by lia.
      split; [apply Z.div_pos; lia|]. apply Z.div_lt_upper_bound; lia.
Qed.

(** A number of [w] bits fits the bytes [RunEncoder] gives it. *)
Lemma fits_bytes (w i : Z) :
  0 <= w -> 0 <= i < 2 ^ w -> 0 <= i < 256 ^ Z.of_nat (Z.to_nat ((w + 7) / 8)).
Proof.
  intros Hw Hi. split; [lia|].
  assert (0 <= (w + 7) / 8) by (apply Z.div_pos; lia).
  rewrite Z2Nat.id by lia.
  change 256 with (2 ^ 8). rewrite <- Z.pow_mul_r by lia.
  eapply Z.lt_le_trans; [apply Hi|]. apply Z.pow_le_mono_r; [lia|].
  pose proof (Z.div_mod (w + 7) 8 ltac:(lia)).
  pose proof (Z.mod_pos_bound (w + 7) 8 ltac:(lia)). lia.
Qed.

(** The bytes [RunEncoder] writes for the indices. *)
Definition runs (w : Z) (indices : list Z) : list DictEncoder.uint8_t :=
  indices ≫= fun i => 2 :: le_bytes (Z.to_nat ((w + 7) / 8)) i.

Lemma put_indices_runs (indices : list Z) (r enc : RunEncoder) :
  put_indices RunEncoder_Put indices r = Some enc ->
  run_written enc = run_written r ++ runs (DictEncoder.run_bit_width r) indices
  /\ DictEncoder.run_bit_width enc = DictEncoder.run_bit_width r.
Proof.
  revert r. induction indices as [|i indices IH]; intros r; cbn [put_indices].
  - intros [= <-]. cbn. now rewrite app_nil_r.
  - unfold RunEncoder_Put.
    destruct (_ <=? _); [|discriminate].
    intros Hput. apply IH in Hput as [Hw Hb]. cbn in Hw, Hb.
    split; [|exact Hb]. rewrite Hw, <- app_assoc. reflexivity.
Qed.

Lemma RunDecoder_read_runs {T : Type} (dict vs : list T) (w : Z)
    (indices : list Z) (rest : list DictEncoder.uint8_t) :
  0 <= w ->
  Forall (fun i => 0 <= i < 2 ^ w) indices ->
  Forall2 (fun i v => at_index dict i = Some v) indices vs ->
  RunDecoder_read dict (length indices)
    (mkRunDecoder (runs w indices ++ rest) w)
  = (vs, mkRunDecoder rest w).
Proof.
  intros Hw Hfit Hvs. revert Hfit. unfold runs.
  induction Hvs as [|i v indices vs Hi _ IH]; intros Hfit; [reflexivity|].
  apply Forall_cons in Hfit as [Hi0 Hfit].
  cbn [length RunDecoder_read run_data run_bit_width mbind list_bind app].
  change (list_bind _ _ ?f ?l) with (l ≫= f).
  rewrite Z.eqb_refl. cbn [andb].
  set (n := Z.to_nat ((w + 7) / 8)) in *.
  rewrite <- app_assoc.
  assert (Hn : length (le_bytes n i) = n) by apply length_le_bytes.
  rewrite (proj2 (Nat.leb_le _ _)) by (rewrite length_app, length_le_bytes; lia).
  rewrite take_app_length' by (symmetry; exact Hn).
  rewrite drop_app_length' by (symmetry; exact Hn).
  rewrite from_le_bytes_le_bytes by (now apply fits_bytes).
  rewrite Hi.
  match goal with
  | |- context [RunDecoder_read ?a ?b ?c] =>
      replace (RunDecoder_read a b c) with (vs, mkRunDecoder rest w)
        by (symmetry; exact (IH Hfit))
  end.
  reflexivity.
Qed.

Lemma run_round_trip {T : Type} :
  rle_round_trip (T:=T) RunEncoder_new RunEncoder_Put RunEncoder_Flush
    RunEncoder_len DictEncoder.run_written RunDecoder_new
    RunDecoder_GetBatchWithDict.
Proof.
  intros w buffer_len indices enc dict vs Hw Hfit Hput Hvs.
  apply put_indices_runs in Hput as [Hwritten _]. cbn in Hwritten.
  unfold RunEncoder_Flush, RunDecoder_new, RunEncoder_len,
    RunDecoder_GetBatchWithDict.
  rewrite !Nat2Z.id, firstn_all, Hwritten.
  rewrite <- (app_nil_r (runs w indices)).
  rewrite (RunDecoder_read_runs dict vs w indices []) by (lia || assumption).
  eexists. f_equal. f_equal. f_equal. now apply Forall2_length in Hvs.
Qed.

(** The theorem at the column [10; 20; 10] of 4-byte integers, written to
    a buffer of 16 bytes: the page is the bit width 1 and three runs. *)
Lemma DictEncoder_DictionaryDecoder_round_trip_witness :
  calls (Primitive 4 (le_bytes 4)) [CallPutMany [10; 20; 10] 3]
    (DictEncoder_new (-1)) = Ok three_indices
  /\ (WriteIndices RunEncoder_new RunEncoder_Put RunEncoder_Flush
        RunEncoder_len DictEncoder.run_written 16 three_indices).1
     = (7, [1; 2; 0; 2; 1; 2; 0])
  /\ exists d',
       (d ← SetData RunDecoder_new 3 [1; 2; 0; 2; 1; 2; 0] 7
              (SetDict [10; 20] (DictionaryDecoder_new (mkRunDecoder [] 0)));
        Decode RunDecoder_GetBatchWithDict 3 d)
       = Ok (d', [10; 20; 10], 3)
       /\ num_values_ d' = 0.
Proof.
  split; [vm_compute; reflexivity|]. split; [vm_compute; reflexivity|].
  refine (proj2 (DictEncoder_DictionaryDecoder_round_trip 4 (le_bytes 4)
                   RunEncoder_new RunEncoder_Put RunEncoder_Flush
                   RunEncoder_len DictEncoder.run_written RunDecoder_new
                   RunDecoder_GetBatchWithDict (-1) 16
                   [CallPutMany [10; 20; 10] 3] three_indices
                   (mkRunDecoder [] 0)
                   run_round_trip RunEncoder_len_nonneg _ _ _)).
  - vm_compute. reflexivity.
  - vm_compute. reflexivity.
  - vm_compute. discriminate.
Defined.

End DictionaryDecoderProofs.
